(** * Traffic control at a four-way intersection (tc.c)

    A shallow embedding of [src/p3/tc.c] and the properties of its
    specification.

    - The pure helpers [dir_index], [get_turn] and [get_quads] are
      functions on characters and integers.
    - [lock_quads], [unlock_quads] and [CrossIntersection] are functions
      that return the sequence of calls they make (one car on its own).
    - The car threads are an interleaving transition system over the
      shared variables of the program: [move] takes one car through
      its next synchronisation call, [run] follows a schedule.

    Assumptions of the transition system: the pthread primitives behave
    as POSIX describes them (a mutex is taken only when free, [sem_wait]
    takes a token only when there is one, [pthread_cond_wait] releases
    the mutex and sleeps in one step, wakes up on a broadcast or
    spuriously, and re-locks the mutex before it returns), and memory
    is sequentially consistent.  C [int]s are integers in [Z]; the
    invariant ([inv_flow], [inv_hol]) ties every counter of the program
    to a number of cars. *)

From Stdlib Require Import ZArith Ascii String List Lia Bool QArith.
From Stdlib Require Import Sorting.Sorted Sorting.Permutation.
From stdpp Require Import base option list sorting relations.

Local Open Scope Z_scope.

(** ** Data model *)

(** [typedef struct _directions]: ASCII arrows. *)
Record directions := mkDirections {
  dir_original : ascii;
  dir_target : ascii
}.

(** [car_t]. [arrival_time] is a C double; it only feeds [usleep]. *)
Record car_t := mkCar {
  cid : Z;
  arrival_time : Q;
  dirs : directions;
  index : Z
}.

(** [enum {DIR_N = 0, DIR_E = 1, DIR_S = 2, DIR_W = 3}]. *)
Definition DIR_N : Z := 0.
Definition DIR_E : Z := 1.
Definition DIR_S : Z := 2.
Definition DIR_W : Z := 3.

Definition NUM_CARS : nat := 8.

(** The hard-coded manifest [cars]. *)
Definition cars : list car_t :=
  [ mkCar 1 (11 # 10) (mkDirections "^"%char "^"%char) 0;
    mkCar 2 (22 # 10) (mkDirections "^"%char "^"%char) 1;
    mkCar 3 (33 # 10) (mkDirections "^"%char "<"%char) 2;
    mkCar 4 (44 # 10) (mkDirections "v"%char "v"%char) 3;
    mkCar 5 (55 # 10) (mkDirections "v"%char ">"%char) 4;
    mkCar 6 (66 # 10) (mkDirections "^"%char "^"%char) 5;
    mkCar 7 (77 # 10) (mkDirections ">"%char "^"%char) 6;
    mkCar 8 (88 # 10) (mkDirections "<"%char "^"%char) 7 ].

(** [typedef enum {LEFT_T, STRAIGHT_T, RIGHT_T} turn_t]. *)
Inductive turn_t := LEFT_T | STRAIGHT_T | RIGHT_T.

(** ** Helper functions *)

(** [dir_index]: the [switch] with its [default: return -1]. *)
Definition dir_index (d : ascii) : Z :=
  if Ascii.eqb d "^"%char then DIR_N
  else if Ascii.eqb d ">"%char then DIR_E
  else if Ascii.eqb d "v"%char then DIR_S
  else if Ascii.eqb d "<"%char then DIR_W
  else -1.

(** [get_turn]: the chain of [if]s, ending in [return STRAIGHT_T]. *)
Definition get_turn (d : directions) : turn_t :=
  let o := dir_original d in
  let t := dir_target d in
  if Ascii.eqb o t then STRAIGHT_T
  else if Ascii.eqb o "^"%char && Ascii.eqb t ">"%char then RIGHT_T
  else if Ascii.eqb o "^"%char && Ascii.eqb t "<"%char then LEFT_T
  else if Ascii.eqb o "v"%char && Ascii.eqb t "<"%char then RIGHT_T
  else if Ascii.eqb o "v"%char && Ascii.eqb t ">"%char then LEFT_T
  else if Ascii.eqb o ">"%char && Ascii.eqb t "v"%char then RIGHT_T
  else if Ascii.eqb o ">"%char && Ascii.eqb t "^"%char then LEFT_T
  else if Ascii.eqb o "<"%char && Ascii.eqb t "^"%char then RIGHT_T
  else if Ascii.eqb o "<"%char && Ascii.eqb t "v"%char then LEFT_T
  else STRAIGHT_T.

(** [get_quads].  The C function fills [q[0..n)] through [q[n++] = v] and
    returns [n]; the embedding returns the written cells, in the order
    written, so that the count is the length of the list.  Cells of [q]
    at and above [n] are read by nobody.
    quad 0 = NW, 1 = NE, 2 = SE, 3 = SW. *)
Definition get_quads (c : car_t) : list Z :=
  let o := dir_original (dirs c) in
  let t := get_turn (dirs c) in
  if Ascii.eqb o "^"%char then
    match t with
    | RIGHT_T => [1]
    | STRAIGHT_T => [1; 2]
    | LEFT_T => [1; 2; 3]
    end
  else if Ascii.eqb o ">"%char then
    match t with
    | RIGHT_T => [2]
    | STRAIGHT_T => [2; 3]
    | LEFT_T => [2; 3; 0]
    end
  else if Ascii.eqb o "v"%char then
    match t with
    | RIGHT_T => [3]
    | STRAIGHT_T => [3; 0]
    | LEFT_T => [3; 0; 1]
    end
  else if Ascii.eqb o "<"%char then
    match t with
    | RIGHT_T => [0]
    | STRAIGHT_T => [0; 1]
    | LEFT_T => [0; 1; 2]
    end
  else [].

(** ** Sequential lock helpers, with the calls they make *)

(** The synchronisation and timing calls of a car, as trace events. *)
Inductive event :=
| EvLog (msg : string)
| EvLock (k : Z)       (* Pthread_mutex_lock(&quad[k]) *)
| EvUnlock (k : Z)     (* Pthread_mutex_unlock(&quad[k]) *)
| EvSpin (secs : Z).   (* Spin(secs) *)

(** Body of the inner loop of [lock_quads]:
    [if (q[j] < q[i]) { tmp = q[i]; q[i] = q[j]; q[j] = tmp; }].
    [None] stands for an access outside the array. *)
Definition swap_if_less (q : list Z) (i j : nat) : option (list Z) :=
  a ← q !! i;
  b ← q !! j;
  Some (if b <? a then <[j := a]> (<[i := b]> q) else q).

(** [for (j = ...; j < n; j++)], with [fuel = n - j] iterations left. *)
Fixpoint sort_inner (q : list Z) (i j fuel : nat) : option (list Z) :=
  match fuel with
  | O => Some q
  | S fuel' => q' ← swap_if_less q i j; sort_inner q' i (S j) fuel'
  end.

(** [for (i = ...; i < n; i++)], with [fuel = n - i] iterations left;
    the inner loop starts at [j = i + 1]. *)
Fixpoint sort_outer (q : list Z) (n i fuel : nat) : option (list Z) :=
  match fuel with
  | O => Some q
  | S fuel' =>
      q' ← sort_inner q i (S i) (n - S i);
      sort_outer q' n (S i) fuel'
  end.

(** The first loop nest of [lock_quads]: sorts [q[0..n)] in place. *)
Definition sort_quads (q : list Z) (n : nat) : option (list Z) :=
  sort_outer q n 0 n.

(** [for (i = ...; i < n; i++) Pthread_mutex_lock(&quad[q[i]])]. *)
Fixpoint lock_loop (q : list Z) (i fuel : nat) : option (list event) :=
  match fuel with
  | O => Some []
  | S fuel' =>
      k ← q !! i;
      evs ← lock_loop q (S i) fuel';
      Some (EvLock k :: evs)
  end.

(** [lock_quads]: the array after the call (it is sorted in place, and
    the caller passes the same array on to [unlock_quads]) and the lock
    calls made. *)
Definition lock_quads (q : list Z) (n : nat) : option (list Z * list event) :=
  q' ← sort_quads q n;
  evs ← lock_loop q' 0 n;
  Some (q', evs).

(** [unlock_quads]: [for (i = n - 1; i >= 0; i--)]; the argument [k] is
    [i + 1], the number of cells still to unlock. *)
Fixpoint unlock_loop (q : list Z) (k : nat) : option (list event) :=
  match k with
  | O => Some []
  | S i =>
      v ← q !! i;
      evs ← unlock_loop q i;
      Some (EvUnlock v :: evs)
  end.

Definition unlock_quads (q : list Z) (n : nat) : option (list event) :=
  unlock_loop q n.

(** Seconds passed to [Spin] in [CrossIntersection]. *)
Definition cross_seconds (t : turn_t) : Z :=
  match t with
  | LEFT_T => 5
  | STRAIGHT_T => 4
  | RIGHT_T => 3
  end.

(** [CrossIntersection], run by one car on its own: the calls it makes,
    in order. *)
Definition CrossIntersection (c : car_t) : option (list event) :=
  let q := get_quads c in
  let n := length q in
  '(q', locks) ← lock_quads q n;
  let t := get_turn (dirs c) in
  unlocks ← unlock_quads q' n;
  Some (locks ++ [EvLog "crossing"%string; EvSpin (cross_seconds t)] ++ unlocks).

(** ** The car threads as a transition system

    Each car runs [Car]: [ArriveIntersection], [CrossIntersection],
    [ExitIntersection].  A step of a car is one synchronisation call
    together with the thread-local code around it; the statements a car
    executes between locking and unlocking [turn_lock] form one step,
    since every access to [current_direction] and [flow_count] is made
    under that mutex.  [log_event] takes [print_lock] around a single
    [printf] and requests no other lock meanwhile; it is part of the
    step that calls it.  [usleep] and [Spin] only let time pass.

    An array access outside its bounds has no defined behaviour in C:
    the step function returns [None] there, as it does for a blocked
    call, and the theorems about runs assume a manifest whose origins
    are direction characters. *)

(** Shared variables of tc.c. *)
Record shared := mkShared {
  quad : list bool;         (* pthread_mutex_t quad[4]; true = locked *)
  turn_lock : bool;         (* pthread_mutex_t turn_lock; true = locked *)
  current_direction : Z;    (* -1: nobody owns the intersection *)
  flow_count : list Z;      (* int flow_count[4] *)
  hol_sem : list Z          (* sem_t hol_sem[4], by value *)
}.

Definition set_quad (s : shared) (x : list bool) : shared :=
  mkShared x (turn_lock s) (current_direction s) (flow_count s) (hol_sem s).
Definition set_turn_lock (s : shared) (x : bool) : shared :=
  mkShared (quad s) x (current_direction s) (flow_count s) (hol_sem s).
Definition set_current_direction (s : shared) (x : Z) : shared :=
  mkShared (quad s) (turn_lock s) x (flow_count s) (hol_sem s).
Definition set_flow_count (s : shared) (x : list Z) : shared :=
  mkShared (quad s) (turn_lock s) (current_direction s) x (hol_sem s).
Definition set_hol_sem (s : shared) (x : list Z) : shared :=
  mkShared (quad s) (turn_lock s) (current_direction s) (flow_count s) x.

(** [a[k]] for a C [int] index: defined inside the array only. *)
Definition zlookup {A} (l : list A) (k : Z) : option A :=
  if 0 <=? k then l !! Z.to_nat k else None.

(** [a[k] = v], used once [a[k]] is known to be inside the array. *)
Definition zupdate {A} (l : list A) (k : Z) (v : A) : list A :=
  <[Z.to_nat k := v]> l.

(** Where a car is in [Car].  The line numbers are those of tc.c. *)
Inductive pc :=
| PStart                                (* 304-222: sleep, log, stop *)
| PSemWait                              (* 225: sem_wait(&hol_sem[d]) *)
| PTurnLock                             (* 228: lock turn_lock *)
| PWhile                                (* 231-241: holds turn_lock *)
| PCondWait                             (* 232: asleep in pthread_cond_wait *)
| PCondWoken                            (* 232: woken, re-locking turn_lock *)
| PArriveUnlock                         (* 243 *)
| PCross                                (* 249, 188-196: get_quads, sort *)
| PLocking (q : list Z) (i : nat)       (* 197-198: about to lock q[i] *)
| PSpin (q : list Z)                    (* 253-266: log, Spin *)
| PUnlocking (q : list Z) (k : nat)     (* 204-205: about to unlock q[k-1] *)
| PExitLock                             (* 275-277: log, lock turn_lock *)
| PLeave                                (* 279-286: holds turn_lock *)
| PExitUnlock                           (* 288 *)
| PSemPost                              (* 292: sem_post(&hol_sem[d]) *)
| PDone.                                (* Car returned *)

(** A step returns the next position, the new shared state, and
    whether [pthread_cond_broadcast] was called.  [None]: the call
    blocks, or the position is not one of this function. *)
Definition outcome : Type := option (pc * shared * bool).

(** The steps of [ArriveIntersection] (with the [usleep] of [Car]). *)
Definition ArriveIntersection_step (c : car_t) (p : pc) (s : shared) : outcome :=
  let d := dir_index (dir_original (dirs c)) in
  match p with
  | PStart => Some (PSemWait, s, false)
  | PSemWait =>
      v ← zlookup (hol_sem s) d;
      if 0 <? v
      then Some (PTurnLock, set_hol_sem s (zupdate (hol_sem s) d (v - 1)), false)
      else None
  | PTurnLock =>
      if turn_lock s then None
      else Some (PWhile, set_turn_lock s true, false)
  | PWhile =>
      if negb (current_direction s =? -1) && negb (current_direction s =? d)
      then Some (PCondWait, set_turn_lock s false, false)
      else if current_direction s =? -1 then
        _ ← zlookup (flow_count s) d;
        Some (PArriveUnlock,
              set_flow_count (set_current_direction s d)
                (zupdate (flow_count s) d 1), false)
      else
        v ← zlookup (flow_count s) d;
        Some (PArriveUnlock,
              set_flow_count s (zupdate (flow_count s) d (v + 1)), false)
  | PCondWait => None
  | PCondWoken =>
      if turn_lock s then None
      else Some (PWhile, set_turn_lock s true, false)
  | PArriveUnlock => Some (PCross, set_turn_lock s false, false)
  | _ => None
  end.

(** The steps of [CrossIntersection], with [lock_quads] and
    [unlock_quads] inlined: one step per mutex call. *)
Definition CrossIntersection_step (c : car_t) (p : pc) (s : shared) : outcome :=
  match p with
  | PCross =>
      q ← sort_quads (get_quads c) (length (get_quads c));
      Some (PLocking q 0, s, false)
  | PLocking q i =>
      if (i <? length q)%nat then
        k ← q !! i;
        b ← zlookup (quad s) k;
        if b : bool then None
        else Some (PLocking q (S i), set_quad s (zupdate (quad s) k true), false)
      else Some (PSpin q, s, false)
  | PSpin q => Some (PUnlocking q (length q), s, false)
  | PUnlocking q k =>
      match k with
      | O => Some (PExitLock, s, false)
      | S i =>
          v ← q !! i;
          _ ← zlookup (quad s) v;
          Some (PUnlocking q i, set_quad s (zupdate (quad s) v false), false)
      end
  | _ => None
  end.

(** The steps of [ExitIntersection]. *)
Definition ExitIntersection_step (c : car_t) (p : pc) (s : shared) : outcome :=
  let d := dir_index (dir_original (dirs c)) in
  match p with
  | PExitLock =>
      if turn_lock s then None
      else Some (PLeave, set_turn_lock s true, false)
  | PLeave =>
      v ← zlookup (flow_count s) d;
      let s' := set_flow_count s (zupdate (flow_count s) d (v - 1)) in
      if v - 1 =? 0
      then Some (PExitUnlock, set_current_direction s' (-1), true)
      else Some (PExitUnlock, s', false)
  | PExitUnlock => Some (PSemPost, set_turn_lock s false, false)
  | PSemPost =>
      v ← zlookup (hol_sem s) d;
      Some (PDone, set_hol_sem s (zupdate (hol_sem s) d (v + 1)), false)
  | _ => None
  end.

(** [Car]: one step of car [c] at [p] on shared state [s]. *)
Definition thread_step (c : car_t) (p : pc) (s : shared) : outcome :=
  match p with
  | PStart | PSemWait | PTurnLock | PWhile | PCondWait | PCondWoken
  | PArriveUnlock => ArriveIntersection_step c p s
  | PCross | PLocking _ _ | PSpin _ | PUnlocking _ _ =>
      CrossIntersection_step c p s
  | PExitLock | PLeave | PExitUnlock | PSemPost => ExitIntersection_step c p s
  | PDone => None
  end.

(** Effect of [pthread_cond_broadcast(&turn_cv)] on a sleeping car. *)
Definition wake (p : pc) : pc :=
  match p with
  | PCondWait => PCondWoken
  | _ => p
  end.

(** The whole program: shared variables and one position per car. *)
Record state := mkState {
  sh : shared;
  pcs : list pc
}.

(** The positions after car [i] moved to [p']; if it broadcast, every
    sleeping car is woken. *)
Definition pcs_after (ps : list pc) (i : nat) (p' : pc) (b : bool) : list pc :=
  if b then wake <$> <[i := p']> ps else <[i := p']> ps.

(** Car number [i] of manifest [cs] makes its next call. *)
Definition move (cs : list car_t) (s : state) (i : nat) : option state :=
  c ← cs !! i;
  p ← pcs s !! i;
  '(p', s', b) ← thread_step c p (sh s);
  Some (mkState s' (pcs_after (pcs s) i p' b)).

(** POSIX lets [pthread_cond_wait] return without a signal: car [i],
    asleep, wakes up by itself. *)
Definition spurious_wakeup (s : state) (i : nat) : option state :=
  match pcs s !! i with
  | Some PCondWait => Some (mkState (sh s) (<[i := PCondWoken]> (pcs s)))
  | _ => None
  end.

(** What can happen next in the program. *)
Inductive action :=
| Move (i : nat)
| Spurious (i : nat).

Definition step (cs : list car_t) (s : state) (a : action) : option state :=
  match a with
  | Move i => move cs s i
  | Spurious i => spurious_wakeup s i
  end.

(** A schedule lists what happens, in order. *)
Fixpoint run (cs : list car_t) (s : state) (sched : list action) : option state :=
  match sched with
  | [] => Some s
  | a :: sched' => s' ← step cs s a; run cs s' sched'
  end.

(** Number of calls made, and of spurious wake-ups, in a schedule. *)
Fixpoint moves (sched : list action) : nat :=
  match sched with
  | [] => 0
  | Move _ :: sched' => S (moves sched')
  | Spurious _ :: sched' => moves sched'
  end.

Fixpoint wakeups (sched : list action) : nat :=
  match sched with
  | [] => 0
  | Move _ :: sched' => wakeups sched'
  | Spurious _ :: sched' => S (wakeups sched')
  end.

(** The state [main] sets up before it creates the threads. *)
Definition init_shared : shared :=
  mkShared [false; false; false; false] false (-1) [0; 0; 0; 0] [1; 1; 1; 1].

Definition init (cs : list car_t) : state :=
  mkState init_shared (replicate (length cs) PStart).

(** A manifest entry whose origin is one of the four arrows. *)
Definition valid_car (c : car_t) : bool :=
  negb (dir_index (dir_original (dirs c)) =? -1).

Definition valid_manifest (cs : list car_t) : bool := forallb valid_car cs.

Definition all_exited (s : state) : bool :=
  forallb (fun p => match p with PDone => true | _ => false end) (pcs s).

(** Quadrant locks a car holds, from its position. *)
Definition held (p : pc) : list Z :=
  match p with
  | PLocking q i => take i q
  | PSpin q => q
  | PUnlocking q k => take k q
  | _ => []
  end.

(** The counters [flow_count[d]] are C [int]s, which the transition
    system holds in [Z]: [v + 1] and [v - 1] are the C [++] and [--]
    as long as the result is an [int] (32 bits, two's complement). *)
Definition INT_MAX : Z := 2147483647.
Definition INT_MIN : Z := -2147483648.

Definition is_int (v : Z) : Prop := INT_MIN ≤ v ≤ INT_MAX.

#[global] Instance is_int_dec (v : Z) : Decision (is_int v) :=
  and_dec (decide (INT_MIN ≤ v)) (decide (v ≤ INT_MAX)).

(** ** Predicates used in the proofs *)

(** Loop invariant of the outer loop of [lock_quads]: cells below [i]
    are final, each is at most every later cell of [q[0..n)]. *)
Definition sorted_below (q : list Z) (i n : nat) : Prop :=
  ∀ a b x y, (a < i)%nat → (a < b < n)%nat →
             q !! a = Some x → q !! b = Some y → x ≤ y.

(** ** The specification's vocabulary

    The specification names directions, quadrants and turn kinds; the
    program has characters, array indices and [turn_t].  The maps below
    relate the two, and [turn_table] is the specification's table of
    twelve entries, row by row as the specification lists them. *)

Inductive Direction := North | East | South | West.
Inductive Quadrant := NW | NE | SE | SW.
Inductive TurnKind := Straight | Left | Right.

(** The character of a direction, as [dir_index] reads it. *)
Definition arrow (d : Direction) : ascii :=
  match d with
  | North => "^"%char
  | East => ">"%char
  | South => "v"%char
  | West => "<"%char
  end.

(** Whether a character is one of the four arrows. *)
Definition is_arrow (d : ascii) : bool :=
  Ascii.eqb d "^"%char || Ascii.eqb d ">"%char ||
  Ascii.eqb d "v"%char || Ascii.eqb d "<"%char.

Definition direction_index (d : Direction) : Z :=
  match d with
  | North => 0
  | East => 1
  | South => 2
  | West => 3
  end.

(** quad 0 = NW, 1 = NE, 2 = SE, 3 = SW. *)
Definition quadrant_index (x : Quadrant) : Z :=
  match x with
  | NW => 0
  | NE => 1
  | SE => 2
  | SW => 3
  end.

Definition turn_kind (t : turn_t) : TurnKind :=
  match t with
  | LEFT_T => Left
  | STRAIGHT_T => Straight
  | RIGHT_T => Right
  end.

(** Neighbours in the rotation North, East, South, West. *)
Definition clockwise (d : Direction) : Direction :=
  match d with
  | North => East
  | East => South
  | South => West
  | West => North
  end.

Definition counter_clockwise (d : Direction) : Direction :=
  match d with
  | North => West
  | West => South
  | South => East
  | East => North
  end.

Definition opposite (d : Direction) : Direction :=
  match d with
  | North => South
  | East => West
  | South => North
  | West => East
  end.

(** The specification's turn classification table. *)
Definition turn_table : list (Direction * Direction * TurnKind * list Quadrant) :=
  [ (North, East, Right, [NE]);
    (North, North, Straight, [NE; SE]);
    (North, West, Left, [NE; SE; SW]);
    (East, South, Right, [SE]);
    (East, East, Straight, [SE; SW]);
    (East, North, Left, [SE; SW; NW]);
    (South, West, Right, [SW]);
    (South, South, Straight, [SW; NW]);
    (South, East, Left, [SW; NW; NE]);
    (West, North, Right, [NW]);
    (West, West, Straight, [NW; NE]);
    (West, South, Left, [NW; NE; SE]) ].

(** What the program computes for a car going from [o] to [t]: the
    turn kind and the cells [get_quads] writes. *)
Definition classify (c : car_t) : TurnKind * list Z :=
  (turn_kind (get_turn (dirs c)), get_quads c).

(** A manifest entry for a car from [o] to [t]. *)
Definition car_from_to (id : Z) (at_ : Q) (ix : Z) (o t : Direction) : car_t :=
  mkCar id at_ (mkDirections (arrow o) (arrow t)) ix.

(** ** Invariants of the transition system *)

(** Direction index of a car: the [d] of [ArriveIntersection] and
    [ExitIntersection]. *)
Definition car_dir (c : car_t) : Z := dir_index (dir_original (dirs c)).

(** Number of cars of [cs], at positions [ps], that satisfy [P]. *)
Fixpoint count_cars (P : car_t → pc → bool) (cs : list car_t) (ps : list pc) : Z :=
  match cs, ps with
  | c :: cs', p :: ps' => Z.b2z (P c p) + count_cars P cs' ps'
  | _, _ => 0
  end.

(** Between [sem_wait] and [sem_post]: the car has its direction's
    head-of-line token. *)
Definition in_hol (p : pc) : bool :=
  match p with
  | PStart | PSemWait | PDone => false
  | _ => true
  end.

(** Between the update of [flow_count] in [ArriveIntersection] and the
    one in [ExitIntersection]: the car is counted in [flow_count]. *)
Definition in_flow (p : pc) : bool :=
  match p with
  | PArriveUnlock | PCross | PLocking _ _ | PSpin _ | PUnlocking _ _
  | PExitLock | PLeave => true
  | _ => false
  end.

(** Between a lock and the next unlock (or wait) of [turn_lock]. *)
Definition holds_turn (p : pc) : bool :=
  match p with
  | PWhile | PArriveUnlock | PLeave | PExitUnlock => true
  | _ => false
  end.

Definition nhol (d : Z) (cs : list car_t) (ps : list pc) : Z :=
  count_cars (fun c p => (car_dir c =? d) && in_hol p) cs ps.

Definition nflow (d : Z) (cs : list car_t) (ps : list pc) : Z :=
  count_cars (fun c p => (car_dir c =? d) && in_flow p) cs ps.

Definition nheld (k : Z) (cs : list car_t) (ps : list pc) : Z :=
  count_cars (fun _ p => bool_decide (k ∈ held p)) cs ps.

(** The local array [q] of a car in [CrossIntersection] is the sorted
    path of that car, and its loop counter is within the array. *)
Definition pc_ok (c : car_t) (p : pc) : Prop :=
  match p with
  | PLocking q i =>
      sort_quads (get_quads c) (length (get_quads c)) = Some q ∧
      (i ≤ length q)%nat
  | PSpin q => sort_quads (get_quads c) (length (get_quads c)) = Some q
  | PUnlocking q k =>
      sort_quads (get_quads c) (length (get_quads c)) = Some q ∧
      (k ≤ length q)%nat
  | _ => True
  end.

(** The FlowState invariant of the specification, on the program's
    variables: the owner is -1 or one direction, counts are not
    negative, only the owner's count can be positive, and there is no
    owner exactly when all four counts are 0. *)
Definition flow_inv (s : shared) : Prop :=
  length (flow_count s) = 4%nat ∧
  (current_direction s = -1 ∨ 0 ≤ current_direction s < 4) ∧
  (∀ d v, zlookup (flow_count s) d = Some v →
          0 ≤ v ∧ (0 < v → current_direction s = d)) ∧
  (current_direction s = -1 ↔
   ∀ d v, zlookup (flow_count s) d = Some v → v = 0).

(** The part of the invariant that relates owner, counts and cars. *)
Definition flow_fields (cs : list car_t) (t : state) : Prop :=
  (∀ d, 0 ≤ d < 4 →
        zlookup (flow_count (sh t)) d = Some (nflow d cs (pcs t))) ∧
  (current_direction (sh t) = -1 ∨ 0 ≤ current_direction (sh t) < 4) ∧
  (∀ d, 0 ≤ d < 4 → 0 < nflow d cs (pcs t) → current_direction (sh t) = d) ∧
  (current_direction (sh t) ≠ -1 →
   0 < nflow (current_direction (sh t)) cs (pcs t)) ∧
  ((∃ j, pcs t !! j = Some PCondWait) → current_direction (sh t) ≠ -1).

(** What holds of every state a run reaches. *)
Record Inv (cs : list car_t) (st : state) : Prop := mkInv {
  inv_pcs : length (pcs st) = length cs;
  inv_quad_len : length (quad (sh st)) = 4%nat;
  inv_flow_len : length (flow_count (sh st)) = 4%nat;
  inv_hol_len : length (hol_sem (sh st)) = 4%nat;
  inv_turn :
    turn_lock (sh st) = true →
    ∃ i p, pcs st !! i = Some p ∧ holds_turn p = true;
  inv_hol :
    ∀ d, 0 ≤ d < 4 →
         zlookup (hol_sem (sh st)) d = Some (1 - nhol d cs (pcs st));
  inv_flow :
    ∀ d, 0 ≤ d < 4 →
         zlookup (flow_count (sh st)) d = Some (nflow d cs (pcs st));
  inv_owner_range :
    current_direction (sh st) = -1 ∨ 0 ≤ current_direction (sh st) < 4;
  inv_owner_only :
    ∀ d, 0 ≤ d < 4 → 0 < nflow d cs (pcs st) → current_direction (sh st) = d;
  inv_owner_counted :
    current_direction (sh st) ≠ -1 →
    0 < nflow (current_direction (sh st)) cs (pcs st);
  inv_waiting :
    (∃ i, pcs st !! i = Some PCondWait) → current_direction (sh st) ≠ -1;
  inv_quad :
    ∀ k, 0 ≤ k < 4 →
         ∃ b, zlookup (quad (sh st)) k = Some b ∧
              nheld k cs (pcs st) = Z.b2z b;
  inv_local :
    ∀ i c p, cs !! i = Some c → pcs st !! i = Some p → pc_ok c p
}.

(** ** A measure that every call decreases *)

(** Calls left in a car's own code, wake-ups apart. *)
Definition rank (p : pc) : nat :=
  match p with
  | PStart => 30
  | PSemWait => 29
  | PTurnLock => 28
  | PCondWoken => 28
  | PWhile => 27
  | PCondWait => 26
  | PArriveUnlock => 25
  | PCross => 24
  | PLocking q i => 10 + length q + (length q - i)
  | PSpin q => 9 + length q
  | PUnlocking q k => 8 + k
  | PExitLock => 7
  | PLeave => 6
  | PExitUnlock => 2
  | PSemPost => 1
  | PDone => 0
  end.

(** Before its [ExitIntersection] update a car may still broadcast. *)
Definition before_leave (p : pc) : bool :=
  match p with
  | PExitUnlock | PSemPost | PDone => false
  | _ => true
  end.

(** A wake-up raises the rank of a sleeping car by 2; a car that can
    still broadcast carries enough weight to pay for waking all cars. *)
Definition weight (n : nat) (p : pc) : nat :=
  (if before_leave p then 2 * n + 1 else 0) + rank p.

Definition measure (st : state) : nat :=
  sum_list_with (weight (length (pcs st))) (pcs st).

(** ** The wait-for relation among cars at the quadrant locks *)

(** Car [i] waits for car [j]: [i] is about to lock a quadrant that
    [j] holds. *)
Definition waits_for (st : state) (i j : nat) : Prop :=
  ∃ q n k pj,
    pcs st !! i = Some (PLocking q n) ∧ q !! n = Some k ∧
    pcs st !! j = Some pj ∧ k ∈ held pj.

(** The quadrant car [i] is about to lock, 4 if it is not about to lock
    any. *)
Definition awaited (st : state) (i : nat) : Z :=
  match pcs st !! i with
  | Some (PLocking q n) =>
      match q !! n with
      | Some k => k
      | None => 4
      end
  | _ => 4
  end.

(** Upper bound on the number of calls in a run of [n] cars without
    spurious wake-ups. *)
Definition step_bound (n : nat) : nat := n * (2 * n + 31).

(** ** The steps of a car, case by case

    [tstep c s p p' s' b] lists the ways [thread_step c p s] can return
    [Some (p', s', b)]; the two are shown to agree, and proofs about
    steps go by cases on [tstep]. *)
Inductive tstep (c : car_t) (s : shared) : pc → pc → shared → bool → Prop :=
| ts_start :
    tstep c s PStart PSemWait s false
| ts_sem_wait v :
    zlookup (hol_sem s) (car_dir c) = Some v → 0 < v →
    tstep c s PSemWait PTurnLock
      (set_hol_sem s (zupdate (hol_sem s) (car_dir c) (v - 1))) false
| ts_turn_lock :
    turn_lock s = false →
    tstep c s PTurnLock PWhile (set_turn_lock s true) false
| ts_wait :
    current_direction s ≠ -1 → current_direction s ≠ car_dir c →
    tstep c s PWhile PCondWait (set_turn_lock s false) false
| ts_join_free v :
    current_direction s = -1 →
    zlookup (flow_count s) (car_dir c) = Some v →
    tstep c s PWhile PArriveUnlock
      (set_flow_count (set_current_direction s (car_dir c))
         (zupdate (flow_count s) (car_dir c) 1)) false
| ts_join_same v :
    current_direction s ≠ -1 → current_direction s = car_dir c →
    zlookup (flow_count s) (car_dir c) = Some v →
    tstep c s PWhile PArriveUnlock
      (set_flow_count s (zupdate (flow_count s) (car_dir c) (v + 1))) false
| ts_relock :
    turn_lock s = false →
    tstep c s PCondWoken PWhile (set_turn_lock s true) false
| ts_arrive_unlock :
    tstep c s PArriveUnlock PCross (set_turn_lock s false) false
| ts_cross q :
    sort_quads (get_quads c) (length (get_quads c)) = Some q →
    tstep c s PCross (PLocking q 0) s false
| ts_lock q i k :
    (i < length q)%nat → q !! i = Some k →
    zlookup (quad s) k = Some false →
    tstep c s (PLocking q i) (PLocking q (S i))
      (set_quad s (zupdate (quad s) k true)) false
| ts_locked q i :
    (length q ≤ i)%nat →
    tstep c s (PLocking q i) (PSpin q) s false
| ts_spin q :
    tstep c s (PSpin q) (PUnlocking q (length q)) s false
| ts_unlock q i k b :
    q !! i = Some k → zlookup (quad s) k = Some b →
    tstep c s (PUnlocking q (S i)) (PUnlocking q i)
      (set_quad s (zupdate (quad s) k false)) false
| ts_unlocked q :
    tstep c s (PUnlocking q 0) PExitLock s false
| ts_exit_lock :
    turn_lock s = false →
    tstep c s PExitLock PLeave (set_turn_lock s true) false
| ts_leave_last v :
    zlookup (flow_count s) (car_dir c) = Some v → v - 1 = 0 →
    tstep c s PLeave PExitUnlock
      (set_current_direction
         (set_flow_count s (zupdate (flow_count s) (car_dir c) (v - 1))) (-1))
      true
| ts_leave_more v :
    zlookup (flow_count s) (car_dir c) = Some v → v - 1 ≠ 0 →
    tstep c s PLeave PExitUnlock
      (set_flow_count s (zupdate (flow_count s) (car_dir c) (v - 1))) false
| ts_exit_unlock :
    tstep c s PExitUnlock PSemPost (set_turn_lock s false) false
| ts_sem_post v :
    zlookup (hol_sem s) (car_dir c) = Some v →
    tstep c s PSemPost PDone
      (set_hol_sem s (zupdate (hol_sem s) (car_dir c) (v + 1))) false.

(** ** Tactics *)

(** Case analysis on a step function that returned [Some _]. *)
Ltac invert_step H :=
  repeat match type of H with
    | (if ?x then _ else _) = Some _ =>
        let E := fresh "E" in destruct x eqn:E; try discriminate H
    | (match ?x with _ => _ end) = Some _ =>
        let E := fresh "E" in destruct x eqn:E; try discriminate H
    | (?o ≫= _) = Some _ =>
        let E := fresh "E" in
        destruct o eqn:E; simpl in H; try discriminate H
    end.

(** Boolean tests in the hypotheses, as propositions. *)
Ltac bool_hyps :=
  repeat match goal with
    | H : _ && _ = true |- _ => apply andb_true_iff in H as [? ?]
    | H : negb _ = true |- _ => apply negb_true_iff in H
    | H : negb _ = false |- _ => apply negb_false_iff in H
    | H : (_ =? _) = true |- _ => apply Z.eqb_eq in H
    | H : (_ =? _) = false |- _ => apply Z.eqb_neq in H
    | H : (_ <? _) = true |- _ => apply Z.ltb_lt in H
    | H : (_ <? _)%nat = true |- _ => apply Nat.ltb_lt in H
    | H : (_ <? _)%nat = false |- _ => apply Nat.ltb_ge in H
    | H : _ && _ = false |- _ => apply andb_false_iff in H as [H|H]
    end.

(** Membership in [turn_table], and a search through its rows. *)
Ltac in_table :=
  unfold turn_table;
  repeat first [apply list_elem_of_here | apply list_elem_of_further].

Ltac try_rows l tac :=
  lazymatch l with
  | (?o, ?t0, ?k, ?p) :: ?l' =>
      first [ solve [exists t0, k, p; tac] | try_rows l' tac ]
  end.

(** ** Further invariants *)

(** Number of cars between a lock and the next unlock (or wait) of
    [turn_lock]. *)
Definition nturn (cs : list car_t) (ps : list pc) : Z :=
  count_cars (fun _ p => holds_turn p) cs ps.

(** More of what holds of every state a run reaches: the head-of-line
    token of a direction is with at most one car, [turn_lock] is locked
    exactly when one car is inside its critical section, and a car
    asleep in [pthread_cond_wait] is not of the owning direction. *)
Record Inv2 (cs : list car_t) (st : state) : Prop := mkInv2 {
  inv2_hol : ∀ d, 0 ≤ d < 4 → nhol d cs (pcs st) ≤ 1;
  inv2_turn : nturn cs (pcs st) = Z.b2z (turn_lock (sh st));
  inv2_asleep :
    ∀ i c, cs !! i = Some c → pcs st !! i = Some PCondWait →
           current_direction (sh st) ≠ car_dir c
}.

(** The quadrant mutexes after the quadrants [ks] have been locked. *)
Definition lock_all (qd : list bool) (ks : list Z) : list bool :=
  foldl (fun l k => zupdate l k true) qd ks.

(** * Proofs *)

(** ** The sort of [lock_quads] *)

Section SortQuads.

Implicit Types (q : list Z) (i j k n : nat).

Lemma swap_if_less_spec q i j :
  (i < j)%nat → (j < length q)%nat →
  ∃ q' a b,
    swap_if_less q i j = Some q' ∧
    q !! i = Some a ∧ q !! j = Some b ∧
    q' !! i = Some (Z.min a b) ∧ q' !! j = Some (Z.max a b) ∧
    length q' = length q ∧ q' ≡ₚ q ∧
    (∀ k, k ≠ i → k ≠ j → q' !! k = q !! k).
Proof.
  intros Hij Hj.
  destruct (lookup_lt_is_Some_2 q i) as [a Ha]; [lia|].
  destruct (lookup_lt_is_Some_2 q j) as [b Hb]; [lia|].
  unfold swap_if_less. rewrite Ha, Hb. simpl.
  destruct (Z.ltb_spec b a) as [Hlt|Hge].
  - exists (<[j:=a]> (<[i:=b]> q)), a, b.
    rewrite Z.min_r, Z.max_l by lia.
    repeat split; auto.
    + rewrite list_lookup_insert_ne by lia.
      apply list_lookup_insert_eq. lia.
    + apply list_lookup_insert_eq. rewrite length_insert. lia.
    + by rewrite !length_insert.
    + by apply Permutation_insert_swap.
    + intros k Hki Hkj. by rewrite !list_lookup_insert_ne.
  - exists q, a, b.
    rewrite Z.min_l, Z.max_r by lia.
    repeat split; auto.
Qed.

(** The inner loop leaves the minimum of [q[i..n)] at [i], moves cells
    only inside [i..n), and keeps everything else. *)
Lemma sort_inner_spec fuel : ∀ q i j n,
  (i < j)%nat → (j + fuel = n)%nat → (n ≤ length q)%nat →
  (∀ b x y, (i < b < j)%nat → q !! i = Some x → q !! b = Some y → x ≤ y) →
  ∃ q',
    sort_inner q i j fuel = Some q' ∧
    length q' = length q ∧ q' ≡ₚ q ∧
    (∀ k, (k < i ∨ n ≤ k)%nat → q' !! k = q !! k) ∧
    (∀ b x y, (i < b < n)%nat → q' !! i = Some x → q' !! b = Some y → x ≤ y) ∧
    (∀ b y, (i ≤ b < n)%nat → q' !! b = Some y →
            ∃ b', (i ≤ b' < n)%nat ∧ q !! b' = Some y).
Proof.
  induction fuel as [|fuel IH]; intros q i j n Hij Hn Hlen Hpre.
  - exists q. simpl. replace n with j by lia. repeat split; eauto.
  - destruct (swap_if_less_spec q i j) as
      (q1 & a & b & Hsw & Ha & Hb & Ha1 & Hb1 & Hl1 & Hp1 & Hk1); [lia..|].
    destruct (IH q1 i (S j) n) as (q' & Hrun & Hl & Hp & Hout & Hmin & Hseg);
      [lia | lia | lia | |].
    { intros c x y Hc Hx Hy. rewrite Ha1 in Hx. injection Hx as <-.
      destruct (decide (c = j)) as [->|Hne].
      - rewrite Hb1 in Hy. injection Hy as <-. lia.
      - rewrite Hk1 in Hy by lia.
        pose proof (Hpre c a y ltac:(lia) Ha Hy). lia. }
    exists q'. simpl. rewrite Hsw. simpl. repeat split.
    + done.
    + lia.
    + by rewrite Hp.
    + intros k Hk. rewrite Hout by lia. apply Hk1; lia.
    + done.
    + intros c y Hc Hy.
      destruct (Hseg c y Hc Hy) as (c' & Hc' & Hy').
      destruct (decide (c' = i)) as [->|Hni].
      * rewrite Ha1 in Hy'. injection Hy' as <-.
        destruct (Z.min_spec a b) as [[_ ->]|[_ ->]].
        -- exists i. split; [lia|done].
        -- exists j. split; [lia|done].
      * destruct (decide (c' = j)) as [->|Hnj].
        -- rewrite Hb1 in Hy'. injection Hy' as <-.
           destruct (Z.max_spec a b) as [[_ ->]|[_ ->]].
           ++ exists j. split; [lia|done].
           ++ exists i. split; [lia|done].
        -- exists c'. split; [lia|]. by rewrite <- Hk1.
Qed.

Lemma sort_outer_spec fuel : ∀ q i n,
  (i + fuel = n)%nat → (n ≤ length q)%nat → sorted_below q i n →
  ∃ q',
    sort_outer q n i fuel = Some q' ∧
    length q' = length q ∧ q' ≡ₚ q ∧
    (∀ k, (n ≤ k)%nat → q' !! k = q !! k) ∧
    sorted_below q' n n.
Proof.
  induction fuel as [|fuel IH]; intros q i n Hn Hlen Hsorted.
  - assert (n = i) as -> by lia. exists q. simpl. repeat split; eauto.
  - destruct (sort_inner_spec (n - S i) q i (S i) n) as
      (q1 & Hrun1 & Hl1 & Hp1 & Hout1 & Hmin1 & Hseg1); [lia | lia | lia | |].
    { intros b x y Hb. lia. }
    destruct (IH q1 (S i) n) as (q' & Hrun & Hl & Hp & Hout & Hs);
      [lia | lia | |].
    { intros a b x y Ha Hab Hx Hy.
      destruct (decide (a = i)) as [->|Hne].
      - eapply Hmin1; eauto.
      - rewrite Hout1 in Hx by lia.
        destruct (decide (b < i)%nat) as [Hbi|Hbi].
        + rewrite Hout1 in Hy by lia. eapply (Hsorted a b); eauto; lia.
        + destruct (Hseg1 b y) as (b' & Hb' & Hy'); [lia | done |].
          eapply (Hsorted a b'); eauto; lia. }
    exists q'. simpl. rewrite Hrun1. simpl. repeat split.
    + done.
    + lia.
    + by rewrite Hp.
    + intros k Hk. rewrite Hout by lia. apply Hout1. lia.
    + done.
Qed.

Lemma sorted_below_take q n :
  sorted_below q n n → StronglySorted Z.le (take n q).
Proof.
  revert n. induction q as [|x q IH]; intros n Hs.
  - rewrite take_nil. constructor.
  - destruct n as [|n]; simpl; constructor.
    + apply IH. intros a b u v Ha Hab Hu Hv.
      apply (Hs (S a) (S b) u v); simpl; auto; lia.
    + apply Forall_forall. intros y Hy.
      apply elem_of_take in Hy as (k & Hk & Hlt).
      apply (Hs 0%nat (S k) x y); simpl; auto; lia.
Qed.

Lemma same_suffix_drop q q' n :
  length q' = length q →
  (∀ k, (n ≤ k)%nat → q' !! k = q !! k) → drop n q' = drop n q.
Proof.
  intros Hl H. apply list_eq. intros k.
  rewrite !lookup_drop. apply H. lia.
Qed.

(** [sort_quads] returns, sorts [q[0..n)] and touches nothing else. *)
Lemma sort_quads_spec q n :
  (n ≤ length q)%nat →
  ∃ q',
    sort_quads q n = Some q' ∧
    length q' = length q ∧
    StronglySorted Z.le (take n q') ∧
    take n q' ≡ₚ take n q ∧
    drop n q' = drop n q.
Proof.
  intros Hn.
  destruct (sort_outer_spec n q 0%nat n) as (q' & Hrun & Hl & Hp & Hout & Hs);
    [lia | lia | |].
  { intros a b x y Ha. lia. }
  exists q'. split; [done|]. split; [done|].
  assert (Hd : drop n q' = drop n q) by by apply same_suffix_drop.
  repeat split.
  - by apply sorted_below_take.
  - apply (Permutation_app_inv_r (drop n q)).
    rewrite <- Hd at 1. by rewrite !take_drop.
  - done.
Qed.

Lemma sort_quads_full q :
  ∃ q',
    sort_quads q (length q) = Some q' ∧
    length q' = length q ∧ StronglySorted Z.le q' ∧ q' ≡ₚ q.
Proof.
  destruct (sort_quads_spec q (length q)) as (q' & Hrun & Hl & Hs & Hp & _);
    [lia|].
  exists q'. rewrite <- Hl in Hs, Hp at 1.
  rewrite !firstn_all in *. auto.
Qed.

Lemma lock_loop_spec fuel : ∀ q i,
  (i + fuel ≤ length q)%nat →
  lock_loop q i fuel = Some (EvLock <$> take fuel (drop i q)).
Proof.
  induction fuel as [|fuel IH]; intros q i Hlen; [done|].
  destruct (lookup_lt_is_Some_2 q i) as [k Hk]; [lia|].
  simpl. rewrite Hk. simpl. rewrite IH by lia. simpl.
  rewrite (drop_S _ _ _ Hk). done.
Qed.

Lemma unlock_loop_spec k : ∀ q,
  (k ≤ length q)%nat →
  unlock_loop q k = Some (EvUnlock <$> rev (take k q)).
Proof.
  induction k as [|k IH]; intros q Hlen; [done|].
  destruct (lookup_lt_is_Some_2 q k) as [v Hv]; [lia|].
  simpl unlock_loop. rewrite Hv. simpl. rewrite IH by lia. simpl.
  rewrite (take_S_r _ _ _ Hv), rev_app_distr. done.
Qed.

End SortQuads.

(** ** Turn classification and the crossing, one car on its own *)

Lemma dir_index_range d : dir_index d = -1 ∨ 0 ≤ dir_index d < 4.
Proof.
  unfold dir_index, DIR_N, DIR_E, DIR_S, DIR_W.
  repeat case_match; lia.
Qed.

(** The cells [CrossIntersection] locks, in the order it locks them. *)
Lemma CrossIntersection_trace c :
  ∃ q,
    sort_quads (get_quads c) (length (get_quads c)) = Some q ∧
    StronglySorted Z.le q ∧ q ≡ₚ get_quads c ∧
    CrossIntersection c =
      Some ((EvLock <$> q)
            ++ [EvLog "crossing"%string;
                EvSpin (cross_seconds (get_turn (dirs c)))]
            ++ (EvUnlock <$> rev q)).
Proof.
  destruct (sort_quads_full (get_quads c)) as (q & Hrun & Hl & Hs & Hp).
  exists q. repeat split; auto.
  unfold CrossIntersection, lock_quads, unlock_quads.
  rewrite Hrun. simpl.
  rewrite lock_loop_spec by lia. simpl.
  rewrite unlock_loop_spec by lia. simpl.
  rewrite drop_0, <- Hl, !firstn_all. done.
Qed.

(** C3. [lock_quads] sorts the first [n] cells of [q] into ascending
    order and locks them in that order, touching no other cell, and
    [unlock_quads], called on the array [lock_quads] left, unlocks the
    same cells in the reverse, descending, order. *)
Theorem lock_quads_ascending_unlock_descending (q : list Z) (n : nat) :
  (n ≤ length q)%nat →
  ∃ q',
    lock_quads q n = Some (q', EvLock <$> take n q') ∧
    StronglySorted Z.le (take n q') ∧
    take n q' ≡ₚ take n q ∧
    drop n q' = drop n q ∧
    unlock_quads q' n = Some (EvUnlock <$> rev (take n q')) ∧
    StronglySorted Z.ge (rev (take n q')).
Proof.
  intros Hn.
  destruct (sort_quads_spec q n Hn) as (q' & Hrun & Hl & Hs & Hp & Hd).
  exists q'. unfold lock_quads, unlock_quads. rewrite Hrun. simpl.
  rewrite lock_loop_spec, unlock_loop_spec by lia. simpl.
  rewrite drop_0. repeat split; auto.
  clear - Hs. induction Hs as [|x l Hs IH Hx]; simpl; [constructor|].
  apply StronglySorted_app_2; auto.
  - intros a b Ha Hb.
    apply (proj1 (list_elem_of_In _ _)), (proj2 (in_rev _ _)) in Ha.
    apply (proj2 (list_elem_of_In _ _)) in Ha.
    apply list_elem_of_singleton in Hb as ->.
    rewrite Forall_forall in Hx. specialize (Hx a Ha). lia.
  - repeat constructor.
Qed.

Lemma lock_quads_ascending_unlock_descending_witness :
  ∃ q',
    lock_quads [3; 0; 1; 7] 3 = Some (q', EvLock <$> take 3 q') ∧
    StronglySorted Z.le (take 3 q') ∧
    take 3 q' ≡ₚ take 3 [3; 0; 1; 7] ∧
    drop 3 q' = drop 3 [3; 0; 1; 7] ∧
    unlock_quads q' 3 = Some (EvUnlock <$> rev (take 3 q')) ∧
    StronglySorted Z.ge (rev (take 3 q')).
Proof.
  apply (lock_quads_ascending_unlock_descending [3; 0; 1; 7] 3).
  simpl. lia.
Defined.

(** C4. For every pair of directions, origin and destination, the turn
    kind and the quadrants the program computes are those of the
    specification's table.  The table has one row for each origin and
    turn kind.  Each of its twelve rows is what the program computes
    for the row's origin and destination, quadrants in the row's order.
    For every one of the sixteen pairs the program computes a turn kind
    and the quadrants of the row of that origin and turn kind: Right
    exactly for the clockwise neighbour, Left exactly for the
    counter-clockwise neighbour, and Straight exactly for a destination
    equal to the origin or opposite to it, so that an opposite pair is
    classified as the pair of the origin with itself. *)
Theorem turn_table_exact :
  Forall (fun '(o, t, k, p) =>
            ∀ id at_ ix,
              classify (car_from_to id at_ ix o t) = (k, quadrant_index <$> p))
         turn_table
  ∧ (∀ o, dir_index (arrow o) = direction_index o)
  ∧ (∀ o, get_turn (mkDirections (arrow o) (arrow o)) = STRAIGHT_T)
  ∧ (∀ o, get_turn (mkDirections (arrow o) (arrow (clockwise o))) = RIGHT_T)
  ∧ (∀ o, get_turn (mkDirections (arrow o) (arrow (counter_clockwise o)))
          = LEFT_T)
  ∧ (∀ o t id at_ ix, ∃ t0 k p,
        (o, t0, k, p) ∈ turn_table ∧
        classify (car_from_to id at_ ix o t) = (k, quadrant_index <$> p) ∧
        (k = Right ↔ t = clockwise o) ∧
        (k = Left ↔ t = counter_clockwise o) ∧
        (k = Straight ↔ t = o ∨ t = opposite o))
  ∧ (∀ o k t1 p1 t2 p2,
        (o, t1, k, p1) ∈ turn_table → (o, t2, k, p2) ∈ turn_table →
        t1 = t2 ∧ p1 = p2)
  ∧ (∀ o id at_ ix,
        classify (car_from_to id at_ ix o (opposite o))
        = classify (car_from_to id at_ ix o o)).
Proof.
  split; [unfold turn_table; repeat constructor|].
  do 4 (split; [intros []; reflexivity|]).
  split; [|split].
  - intros o t id at_ ix.
    destruct o, t;
      (let l := eval unfold turn_table in turn_table in
       try_rows l ltac:(split; [in_table|];
                        split; [reflexivity|];
                        repeat split; intros; try discriminate; try reflexivity;
                        intuition (try discriminate; auto))).
  - intros o k t1 p1 t2 p2 H1 H2. unfold turn_table in H1, H2.
    repeat (apply elem_of_cons in H1 as [H1|H1];
            [injection H1 as -> -> -> ->|]);
      try (by apply elem_of_nil in H1);
      repeat (apply elem_of_cons in H2 as [H2|H2];
              [try discriminate H2; by injection H2 as -> ->|]);
      by apply elem_of_nil in H2.
  - intros []; reflexivity.
Qed.

(** The four pairs of opposite directions are no rows of the table:
    [get_turn] reaches its final [return STRAIGHT_T] for them. *)
Lemma get_turn_opposite o :
  get_turn (mkDirections (arrow o) (arrow (clockwise (clockwise o))))
  = STRAIGHT_T.
Proof. by destruct o. Qed.

(** C9. [Spin] gets 5 seconds for a left turn, 4 for going straight and
    3 for a right turn, so that Right < Straight < Left; and
    [CrossIntersection] makes all its lock calls, then logs and spins
    for that time, then makes its unlock calls, on the same quadrants
    and with nothing in between. *)
Theorem crossing_duration_by_turn :
  cross_seconds LEFT_T = 5 ∧ cross_seconds STRAIGHT_T = 4 ∧
  cross_seconds RIGHT_T = 3 ∧
  cross_seconds RIGHT_T < cross_seconds STRAIGHT_T < cross_seconds LEFT_T ∧
  ∀ c, ∃ q,
    q ≡ₚ get_quads c ∧
    CrossIntersection c =
      Some ((EvLock <$> q)
            ++ [EvLog "crossing"%string;
                EvSpin (cross_seconds (get_turn (dirs c)))]
            ++ (EvUnlock <$> rev q)).
Proof.
  repeat split; try reflexivity.
  intros c. destruct (CrossIntersection_trace c) as (q & _ & _ & Hp & Hc).
  by exists q.
Qed.

(** ** Invalid directions *)

(** C8, as the specification states it, fails: a manifest entry with
    origin ['x'] is classified (as going straight), [dir_index] gives it
    the index -1, and its thread starts and reaches the [sem_wait] on
    [hol_sem[d]] with that index; nothing is rejected at start-up. *)
Lemma invalid_direction_not_rejected :
  let bad := mkCar 9 (99 # 10) (mkDirections "x"%char "^"%char) 8 in
  valid_manifest [bad] = false ∧
  get_turn (dirs bad) = STRAIGHT_T ∧
  dir_index (dir_original (dirs bad)) = -1 ∧
  move [bad] (init [bad]) 0 = Some (mkState init_shared [PSemWait]) ∧
  thread_step bad PSemWait init_shared = None.
Proof. repeat split. Qed.

Lemma is_arrow_false d :
  is_arrow d = false →
  Ascii.eqb d "^"%char = false ∧ Ascii.eqb d ">"%char = false ∧
  Ascii.eqb d "v"%char = false ∧ Ascii.eqb d "<"%char = false.
Proof.
  unfold is_arrow. intros H.
  repeat (apply orb_false_iff in H as [H ?]). auto.
Qed.

(** C8, amended.  [get_turn] is total and never fails: for a pair whose
    origin or destination is not one of the four arrows it returns
    [STRAIGHT_T].  For an origin that is no arrow [dir_index] returns -1
    and [get_quads] an empty path.  The first step of a car's thread is
    taken whatever its directions: nothing is checked at start-up. *)
Theorem get_turn_total_straight_on_invalid (c : car_t) :
  is_arrow (dir_original (dirs c)) = false ∨
  is_arrow (dir_target (dirs c)) = false →
  get_turn (dirs c) = STRAIGHT_T ∧
  (is_arrow (dir_original (dirs c)) = false →
   dir_index (dir_original (dirs c)) = -1 ∧ get_quads c = []) ∧
  ∀ s, thread_step c PStart s = Some (PSemWait, s, false).
Proof.
  intros H. split; [|split; [|done]].
  - unfold get_turn.
    destruct H as [H|H]; destruct (is_arrow_false _ H) as (H1 & H2 & H3 & H4).
    + rewrite H1, H2, H3, H4. simpl. by case_match.
    + rewrite H1, H2, H3, H4. rewrite !andb_false_r. by case_match.
  - intros Ho. destruct (is_arrow_false _ Ho) as (H1 & H2 & H3 & H4).
    unfold dir_index, get_quads. by rewrite H1, H2, H3, H4.
Qed.

Lemma get_turn_total_straight_on_invalid_witness :
  let c := mkCar 9 (99 # 10) (mkDirections "x"%char "^"%char) 8 in
  get_turn (dirs c) = STRAIGHT_T ∧
  (is_arrow (dir_original (dirs c)) = false →
   dir_index (dir_original (dirs c)) = -1 ∧ get_quads c = []) ∧
  ∀ s, thread_step c PStart s = Some (PSemWait, s, false).
Proof.
  apply (get_turn_total_straight_on_invalid
           (mkCar 9 (99 # 10) (mkDirections "x"%char "^"%char) 8)).
  left. reflexivity.
Defined.

(** ** Arrays indexed by a C [int] *)

Lemma zlookup_Some {A} (l : list A) k v :
  zlookup l k = Some v → 0 ≤ k < Z.of_nat (length l).
Proof.
  unfold zlookup. destruct (Z.leb_spec 0 k) as [Hk|Hk]; [|done].
  intros Hv%lookup_lt_Some. lia.
Qed.

Lemma zlookup_in_range {A} (l : list A) k :
  0 ≤ k < Z.of_nat (length l) → ∃ v, zlookup l k = Some v.
Proof.
  intros Hk. unfold zlookup. destruct (Z.leb_spec 0 k); [|lia].
  apply lookup_lt_is_Some_2. lia.
Qed.

Lemma zlookup_zupdate_eq {A} (l : list A) k v :
  0 ≤ k < Z.of_nat (length l) → zlookup (zupdate l k v) k = Some v.
Proof.
  intros Hk. unfold zlookup, zupdate. destruct (Z.leb_spec 0 k); [|lia].
  apply list_lookup_insert_eq. lia.
Qed.

Lemma zlookup_zupdate_ne {A} (l : list A) k e v :
  0 ≤ k → e ≠ k → zlookup (zupdate l k v) e = zlookup l e.
Proof.
  intros Hk Hne. unfold zlookup, zupdate. destruct (Z.leb_spec 0 e); [|done].
  apply list_lookup_insert_ne. lia.
Qed.

Lemma length_zupdate {A} (l : list A) k v : length (zupdate l k v) = length l.
Proof. apply length_insert. Qed.

(** ** Join and Leave *)

Lemma is_int_zupdate (l : list Z) k v :
  Forall is_int l → is_int v → Forall is_int (zupdate l k v).
Proof. intros Hl Hv. by apply Forall_insert. Qed.

Lemma is_int_zlookup (l : list Z) k v :
  Forall is_int l → zlookup l k = Some v → is_int v.
Proof.
  unfold zlookup. intros Hl Hv. destruct (0 <=? k); [|done].
  rewrite Forall_forall in Hl. apply Hl. by eapply list_elem_of_lookup_2.
Qed.

(** C5. A car of direction [d] that evaluates the loop condition of
    [ArriveIntersection] under [turn_lock], the counters being C
    [int]s: with no owner it becomes the owner and sets [flow_count[d]]
    to 1; with owner [d] it adds one to [flow_count[d]], whose value
    [v] is below [INT_MAX] (the one value from which [++] cannot count
    on); in both cases it goes on to unlock, and the counters are still
    [int]s.  With another owner it goes to sleep in
    [pthread_cond_wait], giving up [turn_lock] and changing neither
    owner nor counts; asleep it takes no step; a broadcast, or a
    spurious wake-up, wakes it and changes nothing else; awake it
    changes nothing but [turn_lock], which it must take again, and then
    evaluates the loop condition anew. *)
Theorem join_behaviour (c : car_t) (s : shared) (d : Z) :
  d = dir_index (dir_original (dirs c)) →
  0 ≤ d < 4 → length (flow_count s) = 4%nat →
  Forall is_int (flow_count s) →
  (current_direction s = -1 →
   ∃ s', thread_step c PWhile s = Some (PArriveUnlock, s', false) ∧
         current_direction s' = d ∧
         zlookup (flow_count s') d = Some 1 ∧
         (∀ e, e ≠ d → zlookup (flow_count s') e = zlookup (flow_count s) e) ∧
         quad s' = quad s ∧ turn_lock s' = turn_lock s ∧
         hol_sem s' = hol_sem s ∧
         Forall is_int (flow_count s')) ∧
  (current_direction s = d →
   ∃ v, zlookup (flow_count s) d = Some v ∧
        (v < INT_MAX →
         ∃ s', thread_step c PWhile s = Some (PArriveUnlock, s', false) ∧
               current_direction s' = d ∧
               zlookup (flow_count s') d = Some (v + 1) ∧
               (∀ e, e ≠ d →
                     zlookup (flow_count s') e = zlookup (flow_count s) e) ∧
               quad s' = quad s ∧ turn_lock s' = turn_lock s ∧
               hol_sem s' = hol_sem s ∧
               Forall is_int (flow_count s'))) ∧
  (current_direction s ≠ -1 → current_direction s ≠ d →
   thread_step c PWhile s = Some (PCondWait, set_turn_lock s false, false) ∧
   (∀ s1, thread_step c PCondWait s1 = None) ∧
   wake PCondWait = PCondWoken ∧
   (∀ s1, turn_lock s1 = true → thread_step c PCondWoken s1 = None) ∧
   (∀ s1, turn_lock s1 = false →
          thread_step c PCondWoken s1 = Some (PWhile, set_turn_lock s1 true, false)) ∧
   (∀ st i, pcs st !! i = Some PCondWait →
            spurious_wakeup st i
            = Some (mkState (sh st) (<[i := PCondWoken]> (pcs st))))).
Proof.
  intros -> Hd Hlen Hint.
  destruct (zlookup_in_range (flow_count s) (dir_index (dir_original (dirs c))))
    as [v Hv]; [lia|].
  pose proof (is_int_zlookup _ _ _ Hint Hv) as Hvint.
  split; [|split].
  - intros Hcur. eexists. simpl. rewrite Hcur, Hv. simpl.
    split; [done|]. simpl. repeat split.
    + apply zlookup_zupdate_eq. lia.
    + intros e He. apply zlookup_zupdate_ne; [lia|done].
    + apply is_int_zupdate; [done|]. unfold is_int, INT_MIN, INT_MAX. lia.
  - intros Hcur. exists v. split; [done|]. intros Hmax.
    exists (set_flow_count s (zupdate (flow_count s)
              (dir_index (dir_original (dirs c))) (v + 1))).
    simpl. rewrite Hcur, Z.eqb_refl, andb_false_r, Hv.
    destruct (Z.eqb_spec (dir_index (dir_original (dirs c))) (-1)); [lia|].
    simpl. repeat split; auto.
    + apply zlookup_zupdate_eq. lia.
    + intros e He. apply zlookup_zupdate_ne; [lia|done].
    + apply is_int_zupdate; [done|]. unfold is_int in *. lia.
  - intros Hne1 Hne2. simpl.
    apply Z.eqb_neq in Hne1, Hne2. rewrite Hne1, Hne2. simpl.
    repeat split; try (intros s1 ->; done).
    intros st i Hi. unfold spurious_wakeup. by rewrite Hi.
Qed.

(** The three cases, each at a state of its own: nobody owns the
    intersection; the car's direction owns it, with one car inside;
    another direction owns it. *)
Lemma join_behaviour_witness :
  let c := mkCar 1 (11 # 10) (mkDirections "^"%char "^"%char) 0 in
  let free := mkShared [false; false; false; false] true (-1)
                [0; 0; 0; 0] [0; 1; 1; 1] in
  let same := mkShared [false; true; true; false] true 0
                [1; 0; 0; 0] [0; 1; 1; 1] in
  let other := mkShared [false; false; false; true] true 2
                 [0; 0; 1; 0] [0; 1; 0; 1] in
  (∃ s', thread_step c PWhile free = Some (PArriveUnlock, s', false) ∧
         current_direction s' = 0 ∧
         zlookup (flow_count s') 0 = Some 1 ∧
         (∀ e, e ≠ 0 →
               zlookup (flow_count s') e = zlookup (flow_count free) e) ∧
         quad s' = quad free ∧ turn_lock s' = turn_lock free ∧
         hol_sem s' = hol_sem free ∧
         Forall is_int (flow_count s')) ∧
  (∃ s', thread_step c PWhile same = Some (PArriveUnlock, s', false) ∧
         current_direction s' = 0 ∧
         zlookup (flow_count s') 0 = Some (1 + 1) ∧
         (∀ e, e ≠ 0 →
               zlookup (flow_count s') e = zlookup (flow_count same) e) ∧
         quad s' = quad same ∧ turn_lock s' = turn_lock same ∧
         hol_sem s' = hol_sem same ∧
         Forall is_int (flow_count s')) ∧
  (thread_step c PWhile other
   = Some (PCondWait, set_turn_lock other false, false) ∧
   (∀ s1, thread_step c PCondWait s1 = None) ∧
   wake PCondWait = PCondWoken ∧
   (∀ s1, turn_lock s1 = true → thread_step c PCondWoken s1 = None) ∧
   (∀ s1, turn_lock s1 = false →
          thread_step c PCondWoken s1 = Some (PWhile, set_turn_lock s1 true, false)) ∧
   (∀ st i, pcs st !! i = Some PCondWait →
            spurious_wakeup st i
            = Some (mkState (sh st) (<[i := PCondWoken]> (pcs st))))).
Proof.
  intros c free same other.
  assert (Hint : ∀ a b e f : Z,
             is_int a → is_int b → is_int e → is_int f →
             Forall is_int [a; b; e; f])
    by (intros a b e f ? ? ? ?; repeat (constructor; [assumption|]); constructor).
  assert (H0 : is_int 0) by (unfold is_int, INT_MIN, INT_MAX; lia).
  assert (H1 : is_int 1) by (unfold is_int, INT_MIN, INT_MAX; lia).
  split; [|split].
  - apply (join_behaviour c free 0); [reflexivity | lia | reflexivity | | reflexivity].
    by apply Hint.
  - destruct (proj1 (proj2 (join_behaviour c same 0 eq_refl ltac:(lia) eq_refl
                               (Hint 1 0 0 0 H1 H0 H0 H0))) eq_refl)
      as (v & Hv & Hjoin).
    injection Hv as <-. apply Hjoin. unfold INT_MAX. lia.
  - apply (join_behaviour c other 0); [reflexivity | lia | reflexivity | | | ].
    + by apply Hint.
    + simpl. lia.
    + simpl. lia.
Defined.

(** C6. A car of direction [d] that runs the body of [ExitIntersection]
    under [turn_lock], the counters being C [int]s and [flow_count[d]]
    above [INT_MIN] (the one value from which [--] cannot count down),
    takes one off [flow_count[d]].  If the count is then 0 the owner
    becomes -1 and every car that was asleep in [pthread_cond_wait] is
    awake, while every other car is where it was; otherwise the owner
    stays and no car is woken.  No other count is touched.  A car that
    is asleep takes no step, whatever the shared state; a car that is
    awake goes on to the loop condition once [turn_lock] is free. *)
Theorem leave_behaviour (cs : list car_t) (st : state) (i : nat)
    (c : car_t) (d : Z) :
  cs !! i = Some c → pcs st !! i = Some PLeave →
  d = dir_index (dir_original (dirs c)) →
  0 ≤ d < 4 → length (flow_count (sh st)) = 4%nat →
  Forall is_int (flow_count (sh st)) →
  zlookup (flow_count (sh st)) d ≠ Some INT_MIN →
  ∃ v st',
    zlookup (flow_count (sh st)) d = Some v ∧
    move cs st i = Some st' ∧
    zlookup (flow_count (sh st')) d = Some (v - 1) ∧
    Forall is_int (flow_count (sh st')) ∧
    (∀ e, e ≠ d →
          zlookup (flow_count (sh st')) e = zlookup (flow_count (sh st)) e) ∧
    pcs st' !! i = Some PExitUnlock ∧
    length (pcs st') = length (pcs st) ∧
    (v - 1 = 0 →
     current_direction (sh st') = -1 ∧
     (∀ j, j ≠ i → pcs st !! j = Some PCondWait →
           pcs st' !! j = Some PCondWoken) ∧
     (∀ j p, j ≠ i → pcs st !! j = Some p → p ≠ PCondWait →
             pcs st' !! j = Some p)) ∧
    (v - 1 ≠ 0 →
     current_direction (sh st') = current_direction (sh st) ∧
     ∀ j, j ≠ i → pcs st' !! j = pcs st !! j) ∧
    (∀ c' s, thread_step c' PCondWait s = None) ∧
    (∀ c' s, turn_lock s = false →
             thread_step c' PCondWoken s
             = Some (PWhile, set_turn_lock s true, false)).
Proof.
  intros Hc Hp -> Hd Hlen Hint Hmin.
  destruct (zlookup_in_range (flow_count (sh st))
              (dir_index (dir_original (dirs c)))) as [v Hv]; [lia|].
  pose proof (is_int_zlookup _ _ _ Hint Hv) as Hvint.
  assert (Hv1 : is_int (v - 1)).
  { assert (v ≠ INT_MIN) by (intros ->; done). unfold is_int in *. lia. }
  pose proof (lookup_lt_Some _ _ _ Hp) as Hi.
  exists v. unfold move. rewrite Hc, Hp. simpl. rewrite Hv. simpl.
  destruct (Z.eqb_spec (v - 1) 0) as [Hz|Hz]; simpl; eexists;
    (split; [done|]); (split; [done|]); simpl;
    (split; [apply zlookup_zupdate_eq; lia|]);
    (split; [by apply is_int_zupdate|]);
    (split; [intros e He; apply zlookup_zupdate_ne; [lia|done]|]).
  - split; [by rewrite list_lookup_fmap, list_lookup_insert_eq|].
    split; [by rewrite length_fmap, length_insert|].
    split; [|split; [done|]].
    + intros _. split; [done|]. split.
      * intros j Hj Hs.
        by rewrite list_lookup_fmap, list_lookup_insert_ne, Hs.
      * intros j p Hj Hs Hp'.
        rewrite list_lookup_fmap, list_lookup_insert_ne, Hs by done.
        simpl. by destruct p.
    + split; [done|]. by intros c' s ->.
  - split; [by rewrite list_lookup_insert_eq|].
    split; [by rewrite length_insert|].
    split; [done|]. split.
    + intros _. split; [done|]. intros j Hj.
      by rewrite list_lookup_insert_ne.
    + split; [done|]. by intros c' s ->.
Qed.

(** Both cases, each at a state of its own: the last car of its
    direction leaves while another car sleeps; one of two cars of its
    direction leaves while another car sleeps. *)
Lemma leave_behaviour_witness :
  let last := mkState (mkShared [false; false; false; false] true 0
                         [1; 0; 0; 0] [0; 0; 1; 1])
                [PLeave; PSemWait; PStart; PStart; PStart; PStart;
                 PCondWait; PStart] in
  let more := mkState (mkShared [false; true; true; false] true 0
                         [2; 0; 0; 0] [0; 0; 1; 1])
                [PLeave; PSemWait; PStart; PStart; PStart; PSpin [1; 2];
                 PCondWait; PStart] in
  (∃ st', move cars last 0 = Some st' ∧
          zlookup (flow_count (sh st')) 0 = Some 0 ∧
          current_direction (sh st') = -1 ∧
          pcs st' !! 6%nat = Some PCondWoken ∧
          pcs st' !! 1%nat = Some PSemWait) ∧
  (∃ st', move cars more 0 = Some st' ∧
          zlookup (flow_count (sh st')) 0 = Some 1 ∧
          current_direction (sh st') = 0 ∧
          pcs st' !! 6%nat = Some PCondWait ∧
          pcs st' !! 5%nat = Some (PSpin [1; 2])).
Proof.
  intros last more.
  assert (Hint : ∀ a b e f : Z,
             is_int a → is_int b → is_int e → is_int f →
             Forall is_int [a; b; e; f])
    by (intros a b e f ? ? ? ?; repeat (constructor; [assumption|]); constructor).
  assert (H0 : is_int 0) by (unfold is_int, INT_MIN, INT_MAX; lia).
  assert (H1 : is_int 1) by (unfold is_int, INT_MIN, INT_MAX; lia).
  assert (H2 : is_int 2) by (unfold is_int, INT_MIN, INT_MAX; lia).
  split.
  - destruct (leave_behaviour cars last 0
                (mkCar 1 (11 # 10) (mkDirections "^"%char "^"%char) 0) 0
                eq_refl eq_refl eq_refl ltac:(lia) eq_refl
                (Hint 1 0 0 0 H1 H0 H0 H0) ltac:(discriminate))
      as (v & st' & Hv & Hmove & Hcount & _ & _ & _ & _ & Hzero & _).
    injection Hv as <-.
    destruct (Hzero eq_refl) as (Hown & Hwoken & Hkept).
    exists st'. split; [exact Hmove|]. split; [exact Hcount|].
    split; [exact Hown|]. split.
    + apply Hwoken; [lia|reflexivity].
    + apply Hkept; [lia|reflexivity|discriminate].
  - destruct (leave_behaviour cars more 0
                (mkCar 1 (11 # 10) (mkDirections "^"%char "^"%char) 0) 0
                eq_refl eq_refl eq_refl ltac:(lia) eq_refl
                (Hint 2 0 0 0 H2 H0 H0 H0) ltac:(discriminate))
      as (v & st' & Hv & Hmove & Hcount & _ & _ & _ & _ & _ & Hpos & _).
    injection Hv as <-.
    destruct (Hpos ltac:(lia)) as (Hown & Hkept).
    exists st'. split; [exact Hmove|]. split; [exact Hcount|].
    split; [exact Hown|]. split.
    + rewrite Hkept; [reflexivity|lia].
    + rewrite Hkept; [reflexivity|lia].
Defined.

(** ** Counting cars *)

Section Counting.

Variable P : car_t → pc → bool.

Lemma count_cars_nonneg cs ps : 0 ≤ count_cars P cs ps.
Proof.
  revert ps. induction cs as [|c cs IH]; intros [|p ps]; simpl; try lia.
  specialize (IH ps). destruct (P c p); simpl; lia.
Qed.

Lemma count_cars_insert cs ps i c p p' :
  cs !! i = Some c → ps !! i = Some p →
  count_cars P cs (<[i := p']> ps) =
  count_cars P cs ps - Z.b2z (P c p) + Z.b2z (P c p').
Proof.
  revert ps i. induction cs as [|c0 cs IH]; intros [|p0 ps] [|i] Hc Hp;
    simplify_eq/=; try lia.
  rewrite (IH ps i) by done. lia.
Qed.

Lemma count_cars_wake cs ps :
  (∀ c p, P c (wake p) = P c p) →
  count_cars P cs (wake <$> ps) = count_cars P cs ps.
Proof.
  intros Hw. revert ps. induction cs as [|c cs IH]; intros [|p ps]; simpl;
    try done.
  by rewrite Hw, IH.
Qed.

Lemma count_cars_ge_1 cs ps i c p :
  cs !! i = Some c → ps !! i = Some p → P c p = true →
  1 ≤ count_cars P cs ps.
Proof.
  revert ps i. induction cs as [|c0 cs IH]; intros [|p0 ps] [|i] Hc Hp HP;
    simplify_eq/=.
  - rewrite HP. pose proof (count_cars_nonneg cs ps). simpl. lia.
  - specialize (IH ps i Hc Hp HP). destruct (P c0 p0); simpl; lia.
Qed.

Lemma count_cars_ge_2 cs ps i j ci pi cj pj :
  i ≠ j →
  cs !! i = Some ci → ps !! i = Some pi → P ci pi = true →
  cs !! j = Some cj → ps !! j = Some pj → P cj pj = true →
  2 ≤ count_cars P cs ps.
Proof.
  revert ps i j.
  induction cs as [|c0 cs IH]; intros [|p0 ps] [|i] [|j] Hij Hci Hpi HPi Hcj Hpj HPj;
    simplify_eq/=.
  - rewrite HPi. pose proof (count_cars_ge_1 cs ps j cj pj Hcj Hpj HPj).
    simpl. lia.
  - rewrite HPj. pose proof (count_cars_ge_1 cs ps i ci pi Hci Hpi HPi).
    simpl. lia.
  - assert (i ≠ j) by congruence.
    pose proof (IH ps i j ltac:(done) Hci Hpi HPi Hcj Hpj HPj).
    destruct (P c0 p0); simpl; lia.
Qed.

Lemma count_cars_exists cs ps :
  0 < count_cars P cs ps →
  ∃ i c p, cs !! i = Some c ∧ ps !! i = Some p ∧ P c p = true.
Proof.
  revert ps. induction cs as [|c cs IH]; intros [|p ps]; simpl; try lia.
  destruct (P c p) eqn:HP; simpl; intros H.
  - by exists 0%nat, c, p.
  - destruct (IH ps) as (i & c' & p' & ? & ? & ?); [lia|].
    by exists (S i), c', p'.
Qed.

End Counting.

(** ** Steps *)

Lemma step_inv cs st i st' :
  move cs st i = Some st' →
  ∃ c p p' s' b,
    cs !! i = Some c ∧ pcs st !! i = Some p ∧
    thread_step c p (sh st) = Some (p', s', b) ∧
    st' = mkState s' (pcs_after (pcs st) i p' b).
Proof.
  unfold move. intros H.
  destruct (cs !! i) as [c|] eqn:Hc; [|done].
  destruct (pcs st !! i) as [p|] eqn:Hp; [|done].
  simpl in H.
  destruct (thread_step c p (sh st)) as [[[p' s'] b]|] eqn:Ht; [|done].
  simpl in H. injection H as <-. by exists c, p, p', s', b.
Qed.

Lemma thread_step_tstep c p s p' s' b :
  thread_step c p s = Some (p', s', b) ↔ tstep c s p p' s' b.
Proof.
  split.
  - unfold thread_step, ArriveIntersection_step, CrossIntersection_step,
      ExitIntersection_step. fold (car_dir c). intros H.
    destruct p; invert_step H; simplify_eq; bool_hyps; try lia;
      econstructor; eauto; lia.
  - intros H.
    unfold thread_step, ArriveIntersection_step, CrossIntersection_step,
      ExitIntersection_step. fold (car_dir c).
    destruct H; simpl;
      repeat match goal with
        | H : ?x = _ |- context [?x] => rewrite H; simpl
        end;
      repeat case_match; bool_hyps; simplify_eq; try done; lia.
Qed.

Lemma wake_fixed p : p ≠ PCondWait → wake p = p.
Proof. by destruct p. Qed.

Lemma step_count (P : car_t → pc → bool) cs st i c p p' b :
  (∀ c p, P c (wake p) = P c p) →
  cs !! i = Some c → pcs st !! i = Some p →
  count_cars P cs (pcs_after (pcs st) i p' b) =
  count_cars P cs (pcs st) - Z.b2z (P c p) + Z.b2z (P c p').
Proof.
  intros Hw Hc Hp. unfold pcs_after. destruct b.
  - rewrite count_cars_wake by done. by apply count_cars_insert.
  - by apply count_cars_insert.
Qed.

Lemma in_hol_wake p : in_hol (wake p) = in_hol p.
Proof. by destruct p. Qed.

Lemma in_flow_wake p : in_flow (wake p) = in_flow p.
Proof. by destruct p. Qed.

Lemma held_wake p : held (wake p) = held p.
Proof. by destruct p. Qed.

Lemma holds_turn_wake p : holds_turn p = true → wake p = p.
Proof. by destruct p. Qed.

Lemma length_pcs_after ps i p' b : length (pcs_after ps i p' b) = length ps.
Proof. unfold pcs_after. destruct b; by rewrite ?length_fmap, length_insert. Qed.

Lemma pcs_after_same ps i p' b :
  (i < length ps)%nat → p' ≠ PCondWait → pcs_after ps i p' b !! i = Some p'.
Proof.
  intros Hi Hp. unfold pcs_after. destruct b.
  - rewrite list_lookup_fmap, list_lookup_insert_eq by done. simpl.
    by rewrite wake_fixed.
  - by rewrite list_lookup_insert_eq.
Qed.

Lemma pcs_after_same_quiet ps i p' :
  (i < length ps)%nat → pcs_after ps i p' false !! i = Some p'.
Proof. intros Hi. unfold pcs_after. by rewrite list_lookup_insert_eq. Qed.

Lemma pcs_after_other ps i j p' b :
  j ≠ i →
  pcs_after ps i p' b !! j = (if b then wake <$> ps !! j else ps !! j).
Proof.
  intros Hj. unfold pcs_after. destruct b.
  - by rewrite list_lookup_fmap, list_lookup_insert_ne.
  - by rewrite list_lookup_insert_ne.
Qed.

Lemma pcs_after_other_quiet ps i j p' :
  j ≠ i → pcs_after ps i p' false !! j = ps !! j.
Proof. intros Hj. by rewrite pcs_after_other. Qed.

(** A step of another car, or a broadcast, changes a position only
    from [PCondWait] to [PCondWoken]. *)
Lemma pcs_after_other_cases ps i j p' b pj' :
  j ≠ i → pcs_after ps i p' b !! j = Some pj' →
  ∃ pj, ps !! j = Some pj ∧ (pj' = pj ∨ (pj = PCondWait ∧ pj' = PCondWoken)).
Proof.
  intros Hj. rewrite pcs_after_other by done. destruct b.
  - destruct (ps !! j) as [pj|]; [|done]. simpl. intros [= <-].
    exists pj. split; [done|]. destruct pj; auto.
  - intros H. exists pj'. auto.
Qed.

(** ** Paths *)

Lemma valid_car_dir cs i c :
  valid_manifest cs = true → cs !! i = Some c → 0 ≤ car_dir c < 4.
Proof.
  intros Hv Hc. unfold valid_manifest in Hv.
  rewrite forallb_forall in Hv.
  assert (Hin : In c cs) by (apply list_elem_of_In; eapply list_elem_of_lookup_2; eauto).
  specialize (Hv c Hin). unfold valid_car in Hv.
  apply negb_true_iff, Z.eqb_neq in Hv.
  destruct (dir_index_range (dir_original (dirs c))); unfold car_dir; lia.
Qed.

Lemma get_quads_cases c :
  In (get_quads c)
     [ [1]; [1; 2]; [1; 2; 3]; [2]; [2; 3]; [2; 3; 0];
       [3]; [3; 0]; [3; 0; 1]; [0]; [0; 1]; [0; 1; 2]; [] ].
Proof. unfold get_quads. repeat case_match; simpl; tauto. Qed.

(** The sorted path of any car: strictly ascending quadrant numbers. *)
Lemma sorted_path c q :
  sort_quads (get_quads c) (length (get_quads c)) = Some q →
  StronglySorted Z.lt q ∧ Forall (fun k => 0 ≤ k < 4) q ∧ (length q ≤ 3)%nat.
Proof.
  pose proof (get_quads_cases c) as Hin. simpl in Hin.
  intros H.
  repeat (destruct Hin as [Hin|Hin];
          [rewrite <- Hin in H; vm_compute in H; injection H as <-;
           split; [repeat constructor; lia|];
           split; [repeat constructor; lia | simpl; lia] |]).
  done.
Qed.

Lemma sort_quads_returns c :
  ∃ q, sort_quads (get_quads c) (length (get_quads c)) = Some q.
Proof.
  destruct (sort_quads_full (get_quads c)) as (q & H & _). by exists q.
Qed.

Lemma sorted_lt_lookup (q : list Z) i j a b :
  StronglySorted Z.lt q → (i < j)%nat →
  q !! i = Some a → q !! j = Some b → a < b.
Proof.
  intros Hs. revert i j. induction Hs as [|x q Hs IH Hx]; intros i j Hij Ha Hb.
  - done.
  - destruct i as [|i], j as [|j]; simplify_eq/=; try lia.
    + rewrite Forall_forall in Hx. apply Hx.
      eapply list_elem_of_lookup_2; eauto.
    + apply (IH i j); auto; lia.
Qed.

Lemma sorted_lt_not_in_take (q : list Z) i k :
  StronglySorted Z.lt q → q !! i = Some k → k ∉ take i q.
Proof.
  intros Hs Hk (j & Hj & Hlt)%elem_of_take.
  pose proof (sorted_lt_lookup q j i k k Hs Hlt Hj Hk). lia.
Qed.

Lemma elem_of_take_S (q : list Z) i k x :
  q !! i = Some k → x ∈ take (S i) q ↔ x ∈ take i q ∨ x = k.
Proof.
  intros Hk. rewrite (take_S_r _ _ _ Hk), elem_of_app, list_elem_of_singleton.
  done.
Qed.

(** ** The invariant *)

Lemma count_cars_start P cs n :
  (∀ c, P c PStart = false) → count_cars P cs (replicate n PStart) = 0.
Proof.
  intros HP. revert n. induction cs as [|c cs IH]; intros [|n]; simpl; try done.
  by rewrite HP, IH.
Qed.

Lemma small_index_cases d : 0 ≤ d < 4 → d = 0 ∨ d = 1 ∨ d = 2 ∨ d = 3.
Proof. lia. Qed.

Lemma Inv_init cs : Inv cs (init cs).
Proof.
  split; simpl; try done.
  - by rewrite length_replicate.
  - intros d Hd. unfold nhol. rewrite count_cars_start.
    + destruct (small_index_cases d Hd) as [->|[->|[->| ->]]]; reflexivity.
    + intros c. apply andb_false_r.
  - intros d Hd. unfold nflow. rewrite count_cars_start.
    + destruct (small_index_cases d Hd) as [->|[->|[->| ->]]]; reflexivity.
    + intros c. apply andb_false_r.
  - by left.
  - intros d Hd. unfold nflow. rewrite count_cars_start; [lia|].
    intros c. apply andb_false_r.
  - intros [i Hi]. apply lookup_replicate in Hi as [? _]. done.
  - intros k Hk. exists false. unfold nheld. rewrite count_cars_start.
    + destruct (small_index_cases k Hk) as [->|[->|[->| ->]]]; by split.
    + intros c. by simpl.
  - intros i c p _ Hp. apply lookup_replicate in Hp as [-> _]. done.
Qed.

Section Preservation.

Variable cs : list car_t.
Hypothesis Hvalid : valid_manifest cs = true.

Variables (st : state) (i : nat) (c : car_t).
Hypothesis HInv : Inv cs st.
Hypothesis Hc : cs !! i = Some c.

(** The state after car [i] stepped from [p] to [p']. *)
Local Abbreviation after s' p' b := (mkState s' (pcs_after (pcs st) i p' b)).

Lemma step_lengths p p' s' b :
  pcs st !! i = Some p → tstep c (sh st) p p' s' b →
  length (pcs (after s' p' b)) = length cs ∧ length (quad (sh (after s' p' b))) = 4%nat ∧
  length (flow_count (sh (after s' p' b))) = 4%nat ∧ length (hol_sem (sh (after s' p' b))) = 4%nat.
Proof.
  intros Hp Ht.
  destruct HInv. simpl. rewrite length_pcs_after.
  split; [done|].
  inversion Ht; subst; simpl; rewrite ?length_zupdate; auto.
Qed.

Lemma step_turn p p' s' b :
  pcs st !! i = Some p → tstep c (sh st) p p' s' b →
  turn_lock (sh (after s' p' b)) = true → ∃ j pj, pcs (after s' p' b) !! j = Some pj ∧ holds_turn pj = true.
Proof.
  intros Hp Ht.
  pose proof (lookup_lt_Some _ _ _ Hp) as Hi.
  assert (Hnew : holds_turn p' = true → ∃ j pj, pcs (after s' p' b) !! j = Some pj ∧ holds_turn pj = true).
  { intros Hh. exists i, p'. split; [|done]. simpl.
    apply pcs_after_same; [done|]. by destruct p'. }
  assert (Hold : holds_turn p = false → turn_lock (sh st) = true →
                 ∃ j pj, pcs (after s' p' b) !! j = Some pj ∧ holds_turn pj = true).
  { intros Hh Hl. destruct (inv_turn _ _ HInv Hl) as (j & pj & Hj & Hpj).
    assert (j ≠ i) by (intros ->; congruence).
    exists j, pj. split; [|done]. simpl.
    rewrite pcs_after_other by done. rewrite Hj. destruct b; [|done].
    simpl. by rewrite holds_turn_wake. }
  inversion Ht; subst; simpl; intros Hl; try done; auto.
Qed.

Lemma step_hol p p' s' b d :
  pcs st !! i = Some p → tstep c (sh st) p p' s' b →
  0 ≤ d < 4 → zlookup (hol_sem (sh (after s' p' b))) d = Some (1 - nhol d cs (pcs (after s' p' b))).
Proof.
  intros Hp Ht Hd.
  pose proof (valid_car_dir _ _ _ Hvalid Hc) as Hcd.
  pose proof (inv_hol _ _ HInv d Hd) as Hold.
  pose proof (inv_hol_len _ _ HInv) as Hlen.
  unfold nhol in *. simpl.
  rewrite (step_count (fun c p => (car_dir c =? d) && in_hol p) cs st i c p p' b)
    by (done || (intros; by rewrite in_hol_wake)).
  destruct (Z.eqb_spec (car_dir c) d) as [Heq|Hne]; simpl.
  - subst d.
    inversion Ht; subst; simpl; rewrite ?Hold; try (f_equal; lia).
    + rewrite zlookup_zupdate_eq by lia. f_equal.
      rewrite Hold in H. injection H as Hv. lia.
    + rewrite zlookup_zupdate_eq by lia. f_equal.
      rewrite Hold in H. injection H as Hv. lia.
  - inversion Ht; subst; simpl; rewrite ?zlookup_zupdate_ne by (lia || done);
      rewrite Hold; f_equal; lia.
Qed.


Lemma step_nflow p p' s' b d :
  pcs st !! i = Some p →
  nflow d cs (pcs (after s' p' b)) =
  nflow d cs (pcs st) - Z.b2z ((car_dir c =? d) && in_flow p)
  + Z.b2z ((car_dir c =? d) && in_flow p').
Proof.
  intros Hp. unfold nflow. simpl.
  apply (step_count (fun c p => (car_dir c =? d) && in_flow p)); try done.
  intros. by rewrite in_flow_wake.
Qed.

Lemma step_waiting p p' s' b :
  pcs st !! i = Some p →
  (∃ j, pcs (after s' p' b) !! j = Some PCondWait) →
  b = false ∧ (p' = PCondWait ∨ ∃ j, pcs st !! j = Some PCondWait).
Proof.
  intros Hp. pose proof (lookup_lt_Some _ _ _ Hp) as Hi.
  intros [j Hj]. simpl in Hj. destruct b.
  - unfold pcs_after in Hj. rewrite list_lookup_fmap in Hj.
    destruct (<[i:=p']> (pcs st) !! j) as [x|]; [|done].
    simpl in Hj. by destruct x.
  - split; [done|]. destruct (decide (j = i)) as [->|Hne].
    + rewrite pcs_after_same_quiet in Hj by done. left. congruence.
    + rewrite pcs_after_other_quiet in Hj by done. right. eauto.
Qed.

Lemma flow_fields_same p p' s' b :
  pcs st !! i = Some p →
  flow_count s' = flow_count (sh st) →
  current_direction s' = current_direction (sh st) →
  in_flow p' = in_flow p → b = false →
  (p' = PCondWait → current_direction (sh st) ≠ -1) →
  flow_fields cs (after s' p' b).
Proof.
  intros Hp Hfc Hcur Hin Hb Hw.
  assert (Hn : ∀ d, nflow d cs (pcs (after s' p' b)) = nflow d cs (pcs st)).
  { intros d. rewrite (step_nflow p) by done. rewrite Hin. lia. }
  destruct HInv. unfold flow_fields. simpl sh. simpl current_direction.
  simpl flow_count. rewrite Hfc, Hcur.
  repeat split.
  - intros d Hd. rewrite Hn. auto.
  - done.
  - intros d Hd. rewrite Hn. auto.
  - rewrite Hn. auto.
  - intros Hex. destruct (step_waiting p p' s' b Hp Hex) as [_ [Hpw|Hold]]; auto.
Qed.

Lemma step_flow p p' s' b :
  pcs st !! i = Some p → tstep c (sh st) p p' s' b →
  flow_fields cs (after s' p' b).
Proof.
  intros Hp Ht.
  pose proof (valid_car_dir _ _ _ Hvalid Hc) as Hcd.
  pose proof (inv_flow _ _ HInv) as HF.
  pose proof (inv_owner_range _ _ HInv) as HR.
  pose proof (inv_owner_only _ _ HInv) as HO.
  pose proof (inv_owner_counted _ _ HInv) as HC.
  pose proof (inv_waiting _ _ HInv) as HW.
  pose proof (inv_flow_len _ _ HInv) as Hlen.
  pose proof (fun d => step_nflow p p' s' b d Hp) as Hn.
  pose proof (step_waiting p p' s' b Hp) as Hwait.
  assert (Hnn : ∀ d, 0 ≤ nflow d cs (pcs st)) by (intros; apply count_cars_nonneg).
  inversion Ht; subst; try (eapply flow_fields_same; done).
  - (* the intersection is free: become the owner *)
    assert (Hzero : ∀ d, 0 ≤ d < 4 → nflow d cs (pcs st) = 0).
    { intros d Hd. specialize (HO d Hd). specialize (Hnn d). lia. }
    unfold flow_fields. simpl sh. simpl current_direction. simpl flow_count.
    simpl in Hn. repeat split.
    + intros d Hd. rewrite Hn, (Hzero d Hd).
      destruct (Z.eqb_spec (car_dir c) d) as [<-|Hne]; simpl.
      * apply zlookup_zupdate_eq. lia.
      * rewrite zlookup_zupdate_ne by (lia || done). rewrite HF, Hzero; auto.
    + right. lia.
    + intros d Hd. rewrite Hn, (Hzero d Hd).
      destruct (Z.eqb_spec (car_dir c) d) as [<-|Hne]; simpl; [done|lia].
    + intros _. rewrite Hn, Z.eqb_refl, (Hzero _ Hcd). simpl. lia.
    + intros _. lia.
  - (* the owner is this car's direction: join the flow *)
    unfold flow_fields. simpl sh. simpl current_direction. simpl flow_count.
    simpl in Hn. repeat split.
    + intros d Hd. rewrite Hn.
      destruct (Z.eqb_spec (car_dir c) d) as [<-|Hne]; simpl.
      * rewrite zlookup_zupdate_eq by lia. f_equal.
        rewrite HF in H1 by done. injection H1 as Hv. lia.
      * rewrite zlookup_zupdate_ne by (lia || done). rewrite HF by done.
        f_equal. lia.
    + done.
    + intros d Hd. rewrite Hn.
      destruct (Z.eqb_spec (car_dir c) d) as [<-|Hne]; simpl; [done|].
      intros Hpos. apply HO; [done|lia].
    + intros _. rewrite Hn, H0, Z.eqb_refl. simpl.
      specialize (Hnn (car_dir c)). lia.
    + done.
  - (* last car of the flow leaves *)
    rewrite HF in H by done. injection H as Hv.
    assert (Hone : nflow (car_dir c) cs (pcs st) = 1) by lia.
    assert (Hown : current_direction (sh st) = car_dir c)
      by (apply HO; [done|lia]).
    unfold flow_fields. simpl sh. simpl current_direction. simpl flow_count.
    simpl in Hn. repeat split.
    + intros d Hd. rewrite Hn.
      destruct (Z.eqb_spec (car_dir c) d) as [<-|Hne]; simpl.
      * rewrite zlookup_zupdate_eq by lia. f_equal. lia.
      * rewrite zlookup_zupdate_ne by (lia || done). rewrite HF by done.
        f_equal. lia.
    + by left.
    + intros d Hd. rewrite Hn.
      destruct (Z.eqb_spec (car_dir c) d) as [<-|Hne]; simpl; [lia|].
      intros Hpos. specialize (HO d Hd). lia.
    + done.
    + intros Hex. by destruct (Hwait Hex).
  - (* a car leaves, others of its direction remain *)
    rewrite HF in H by done. injection H as Hv.
    assert (Hpos : 0 < nflow (car_dir c) cs (pcs st)).
    { assert (1 ≤ nflow (car_dir c) cs (pcs st)); [|lia].
      unfold nflow. eapply (count_cars_ge_1 _ cs (pcs st) i c PLeave); eauto.
      by rewrite Z.eqb_refl. }
    assert (Hown : current_direction (sh st) = car_dir c) by (by apply HO).
    unfold flow_fields. simpl sh. simpl current_direction. simpl flow_count.
    simpl in Hn. repeat split.
    + intros d Hd. rewrite Hn.
      destruct (Z.eqb_spec (car_dir c) d) as [<-|Hne]; simpl.
      * rewrite zlookup_zupdate_eq by lia. f_equal. lia.
      * rewrite zlookup_zupdate_ne by (lia || done). rewrite HF by done.
        f_equal. lia.
    + done.
    + intros d Hd. rewrite Hn.
      destruct (Z.eqb_spec (car_dir c) d) as [<-|Hne]; simpl; [done|].
      intros Hpos'. apply HO; [done|lia].
    + intros _. rewrite Hn, Hown, Z.eqb_refl. simpl. lia.
    + intros Hex. destruct (Hwait Hex) as [_ [?|Hold]]; [done|]. auto.
Qed.


Lemma pc_ok_wake c0 p : pc_ok c0 (wake p) ↔ pc_ok c0 p.
Proof. by destruct p. Qed.

Lemma step_local p p' s' b :
  pcs st !! i = Some p → tstep c (sh st) p p' s' b →
  ∀ j cj pj, cs !! j = Some cj → pcs (after s' p' b) !! j = Some pj →
             pc_ok cj pj.
Proof.
  intros Hp Ht j cj pj Hcj Hpj. simpl in Hpj.
  pose proof (lookup_lt_Some _ _ _ Hp) as Hi.
  pose proof (inv_local _ _ HInv) as Hloc.
  destruct (decide (j = i)) as [->|Hne].
  - assert (cj = c) as -> by congruence.
    assert (Hok : pc_ok c p') .
    { specialize (Hloc i c p Hc Hp).
      inversion Ht; subst; simpl in *; try done; intuition lia. }
    unfold pcs_after in Hpj. destruct b.
    + rewrite list_lookup_fmap, list_lookup_insert_eq in Hpj by done.
      injection Hpj as <-. by apply pc_ok_wake.
    + rewrite list_lookup_insert_eq in Hpj by done. congruence.
  - destruct (pcs_after_other_cases _ _ _ _ _ _ Hne Hpj)
      as (pj0 & Hpj0 & [->|[_ ->]]); [|done].
    by apply (Hloc j).
Qed.

Lemma step_nheld p p' s' b k :
  pcs st !! i = Some p →
  nheld k cs (pcs (after s' p' b)) =
  nheld k cs (pcs st) - Z.b2z (bool_decide (k ∈ held p))
  + Z.b2z (bool_decide (k ∈ held p')).
Proof.
  intros Hp. unfold nheld. simpl.
  apply (step_count (fun _ p => bool_decide (k ∈ held p)) cs st i c p p' b);
    try done.
  intros. by rewrite held_wake.
Qed.

Lemma step_quad p p' s' b :
  pcs st !! i = Some p → tstep c (sh st) p p' s' b →
  ∀ k, 0 ≤ k < 4 →
       ∃ b0, zlookup (quad (sh (after s' p' b))) k = Some b0 ∧
             nheld k cs (pcs (after s' p' b)) = Z.b2z b0.
Proof.
  intros Hp Ht k Hk.
  pose proof (inv_quad _ _ HInv) as HQ.
  pose proof (inv_quad_len _ _ HInv) as Hlen.
  pose proof (inv_local _ _ HInv i c p Hc Hp) as Hok.
  rewrite (step_nheld p) by done.
  assert (Hsame : quad s' = quad (sh st) → held p' = held p →
          ∃ b0, zlookup (quad (sh (after s' p' b))) k = Some b0 ∧
                nheld k cs (pcs st) - Z.b2z (bool_decide (k ∈ held p))
                + Z.b2z (bool_decide (k ∈ held p')) = Z.b2z b0).
  { intros Hq Hh. destruct (HQ k Hk) as (b0 & Hb0 & Hn).
    exists b0. simpl. rewrite Hq, Hh. split; [done|lia]. }
  inversion Ht; subst; try (apply Hsame; done).
  - (* lock q[i0] *)
    simpl in Hok. destruct Hok as [Hsort _].
    destruct (sorted_path _ _ Hsort) as (Hs & _ & _).
    pose proof (zlookup_Some _ _ _ H1) as Hk0.
    simpl. destruct (decide (k = k0)) as [->|Hne].
    + exists true. rewrite zlookup_zupdate_eq by lia. split; [done|].
      destruct (HQ k0) as (b0 & Hb0 & Hn); [lia|].
      assert (b0 = false) as -> by congruence.
      rewrite (bool_decide_eq_false_2 (k0 ∈ take i0 q))
        by by apply sorted_lt_not_in_take.
      rewrite (bool_decide_eq_true_2 (k0 ∈ take (S i0) q))
        by (apply (elem_of_take_S _ _ _ _ H0); by right).
      simpl in *. lia.
    + destruct (HQ k Hk) as (b0 & Hb0 & Hn). exists b0.
      rewrite zlookup_zupdate_ne by (lia || done). split; [done|].
      rewrite (bool_decide_ext (k ∈ take (S i0) q) (k ∈ take i0 q)); [lia|].
      rewrite (elem_of_take_S _ _ _ _ H0). tauto.
  - (* all locked: go on to spin *)
    apply Hsame; [done|]. simpl. by rewrite take_ge.
  - (* spin *)
    apply Hsame; [done|]. simpl. by rewrite firstn_all.
  - (* unlock q[i0] *)
    simpl in Hok. destruct Hok as [Hsort _].
    destruct (sorted_path _ _ Hsort) as (Hs & _ & _).
    pose proof (zlookup_Some _ _ _ H0) as Hk0.
    simpl. destruct (decide (k = k0)) as [->|Hne].
    + exists false. rewrite zlookup_zupdate_eq by lia. split; [done|].
      destruct (HQ k0) as (b1 & Hb1 & Hn); [lia|].
      assert (Hin : k0 ∈ take (S i0) q)
        by (apply (elem_of_take_S _ _ _ _ H); by right).
      assert (1 ≤ nheld k0 cs (pcs st)).
      { unfold nheld.
        apply (count_cars_ge_1 _ cs (pcs st) i c (PUnlocking q (S i0))); auto.
        by apply bool_decide_eq_true_2. }
      rewrite (bool_decide_eq_true_2 _ Hin).
      rewrite (bool_decide_eq_false_2 (k0 ∈ take i0 q))
        by by apply sorted_lt_not_in_take.
      destruct b1; simpl in *; lia.
    + destruct (HQ k Hk) as (b1 & Hb1 & Hn). exists b1.
      rewrite zlookup_zupdate_ne by (lia || done). split; [done|].
      rewrite (bool_decide_ext (k ∈ take (S i0) q) (k ∈ take i0 q)); [lia|].
      rewrite (elem_of_take_S _ _ _ _ H). tauto.
Qed.

(** A step keeps the invariant. *)
Lemma step_Inv_tstep p p' s' b :
  pcs st !! i = Some p → tstep c (sh st) p p' s' b →
  Inv cs (after s' p' b).
Proof.
  intros Hp Ht.
  destruct (step_lengths p p' s' b Hp Ht) as (? & ? & ? & ?).
  destruct (step_flow p p' s' b Hp Ht) as (? & ? & ? & ? & ?).
  split; auto.
  - apply (step_turn p p' s' b Hp Ht).
  - intros d Hd. apply (step_hol p p' s' b d Hp Ht Hd).
  - apply (step_quad p p' s' b Hp Ht).
  - apply (step_local p p' s' b Hp Ht).
Qed.

End Preservation.

Lemma move_Inv cs st i st' :
  valid_manifest cs = true → Inv cs st → move cs st i = Some st' → Inv cs st'.
Proof.
  intros Hv HI (c & p & p' & s' & b & Hc & Hp & Ht & ->)%step_inv.
  apply thread_step_tstep in Ht. by eapply step_Inv_tstep.
Qed.

Lemma spurious_wakeup_inv st i st' :
  spurious_wakeup st i = Some st' →
  pcs st !! i = Some PCondWait ∧
  st' = mkState (sh st) (<[i := PCondWoken]> (pcs st)).
Proof.
  unfold spurious_wakeup. destruct (pcs st !! i) as [[]|]; try done.
  by intros [= <-].
Qed.

(** A spurious wake-up keeps the invariant. *)
Lemma spurious_Inv cs st i st' :
  Inv cs st → spurious_wakeup st i = Some st' → Inv cs st'.
Proof.
  intros HI [Hp ->]%spurious_wakeup_inv.
  pose proof (lookup_lt_Some _ _ _ Hp) as Hi.
  destruct (lookup_lt_is_Some_2 cs i) as [c Hc];
    [by rewrite <- (inv_pcs _ _ HI)|].
  assert (Hcount : ∀ P : car_t → pc → bool,
            P c PCondWoken = P c PCondWait →
            count_cars P cs (<[i := PCondWoken]> (pcs st))
            = count_cars P cs (pcs st)).
  { intros P HP. rewrite (count_cars_insert P cs (pcs st) i c PCondWait) by done.
    rewrite HP. lia. }
  destruct HI. split; simpl; rewrite ?length_insert; auto.
  - intros Hl. destruct (inv_turn0 Hl) as (j & pj & Hj & Hh).
    exists j, pj. split; [|done].
    rewrite list_lookup_insert_ne; [done|]. intros <-.
    rewrite Hp in Hj. by injection Hj as <-.
  - intros d Hd. unfold nhol. rewrite Hcount by done. by apply inv_hol0.
  - intros d Hd. unfold nflow. rewrite Hcount by done. by apply inv_flow0.
  - intros d Hd. unfold nflow. rewrite Hcount by done. by apply inv_owner_only0.
  - intros Hown. unfold nflow. rewrite Hcount by done. by apply inv_owner_counted0.
  - intros [j Hj]. apply inv_waiting0.
    destruct (decide (j = i)) as [->|Hne].
    + by rewrite list_lookup_insert_eq in Hj.
    + rewrite list_lookup_insert_ne in Hj by done. eauto.
  - intros k Hk. unfold nheld. rewrite Hcount by done. by apply inv_quad0.
  - intros j cj pj Hcj Hj. destruct (decide (j = i)) as [->|Hne].
    + rewrite list_lookup_insert_eq in Hj by done. by injection Hj as <-.
    + rewrite list_lookup_insert_ne in Hj by done. by apply (inv_local0 j).
Qed.

Lemma step_Inv cs st a st' :
  valid_manifest cs = true → Inv cs st → step cs st a = Some st' → Inv cs st'.
Proof.
  intros Hv HI Hstep. destruct a as [i|i]; simpl in Hstep.
  - by eapply move_Inv.
  - by eapply spurious_Inv.
Qed.

Lemma run_Inv cs sched : ∀ st st',
  valid_manifest cs = true → Inv cs st → run cs st sched = Some st' →
  Inv cs st'.
Proof.
  induction sched as [|a sched IH]; intros st st' Hv HI Hrun; simpl in Hrun.
  - congruence.
  - destruct (step cs st a) as [st1|] eqn:Hstep; [|done]. simpl in Hrun.
    apply (IH st1 st' Hv); [|done]. by apply (step_Inv cs st a).
Qed.

Lemma reachable_Inv cs sched st :
  valid_manifest cs = true → run cs (init cs) sched = Some st → Inv cs st.
Proof. intros Hv Hrun. eapply run_Inv; eauto using Inv_init. Qed.

(** ** No reachable state is stuck *)

Section Progress.

Variable cs : list car_t.
Hypothesis Hvalid : valid_manifest cs = true.
Variable st : state.
Hypothesis HInv : Inv cs st.

(** Some car can take a step. *)
Local Abbreviation can_step := (∃ j st', move cs st j = Some st').

Lemma car_of_pc j pj : pcs st !! j = Some pj → ∃ cj, cs !! j = Some cj.
Proof.
  intros Hj%lookup_lt_Some. apply lookup_lt_is_Some_2.
  by rewrite <- (inv_pcs _ _ HInv).
Qed.

Lemma tstep_can_step j cj pj p' s' b :
  cs !! j = Some cj → pcs st !! j = Some pj →
  tstep cj (sh st) pj p' s' b → can_step.
Proof.
  intros Hc Hp Ht%thread_step_tstep. exists j. unfold move.
  rewrite Hc, Hp. simpl. rewrite Ht. simpl. eauto.
Qed.

Lemma flow_count_defined cj j :
  cs !! j = Some cj → ∃ v, zlookup (flow_count (sh st)) (car_dir cj) = Some v.
Proof.
  intros Hc. pose proof (valid_car_dir _ _ _ Hvalid Hc).
  rewrite (inv_flow _ _ HInv) by done. eauto.
Qed.

(** A car between lock and unlock of [turn_lock] is never blocked. *)
Lemma holder_can_step j pj :
  pcs st !! j = Some pj → holds_turn pj = true → can_step.
Proof.
  intros Hp Hh. destruct (car_of_pc _ _ Hp) as [cj Hc].
  destruct (flow_count_defined cj j Hc) as [v Hv].
  destruct pj; try done.
  - destruct (decide (current_direction (sh st) = -1)) as [Hfree|Hown].
    + eapply tstep_can_step; eauto. by eapply ts_join_free.
    + destruct (decide (current_direction (sh st) = car_dir cj)) as [Hme|Hother].
      * eapply tstep_can_step; eauto. by eapply ts_join_same.
      * eapply tstep_can_step; eauto. by eapply ts_wait.
  - eapply tstep_can_step; eauto. constructor.
  - destruct (decide (v - 1 = 0)).
    + eapply tstep_can_step; eauto. by eapply ts_leave_last.
    + eapply tstep_can_step; eauto. by eapply ts_leave_more.
  - eapply tstep_can_step; eauto. constructor.
Qed.

Lemma turn_locked_can_step : turn_lock (sh st) = true → can_step.
Proof.
  intros Hl. destruct (inv_turn _ _ HInv Hl) as (j & pj & Hp & Hh).
  by eapply holder_can_step.
Qed.

(** A car about to lock [turn_lock]. *)
Lemma locker_can_step j pj :
  pcs st !! j = Some pj →
  pj = PTurnLock ∨ pj = PCondWoken ∨ pj = PExitLock → can_step.
Proof.
  intros Hp Hpj. destruct (car_of_pc _ _ Hp) as [cj Hc].
  destruct (turn_lock (sh st)) eqn:Hl; [by apply turn_locked_can_step|].
  destruct Hpj as [->|[->| ->]]; eapply tstep_can_step; eauto; by constructor.
Qed.

Lemma path_of_pc j cj q :
  cs !! j = Some cj →
  sort_quads (get_quads cj) (length (get_quads cj)) = Some q →
  ∀ n k, q !! n = Some k → ∃ b, zlookup (quad (sh st)) k = Some b.
Proof.
  intros Hc Hsort n k Hk.
  destruct (sorted_path _ _ Hsort) as (_ & Hr & _).
  rewrite Forall_forall in Hr.
  apply zlookup_in_range. rewrite (inv_quad_len _ _ HInv).
  specialize (Hr k (list_elem_of_lookup_2 _ _ _ Hk)). lia.
Qed.

(** A car that spins or unlocks is never blocked. *)
Lemma crossing_can_step j pj :
  pcs st !! j = Some pj →
  (∃ q, pj = PSpin q) ∨ (∃ q n, pj = PUnlocking q n) → can_step.
Proof.
  intros Hp Hpj. destruct (car_of_pc _ _ Hp) as [cj Hc].
  destruct Hpj as [[q ->]|(q & n & ->)].
  - eapply tstep_can_step; eauto. constructor.
  - destruct n as [|n].
    + eapply tstep_can_step; eauto. constructor.
    + destruct (inv_local _ _ HInv j cj _ Hc Hp) as [Hsort Hn].
      destruct (lookup_lt_is_Some_2 q n) as [k Hk]; [lia|].
      destruct (path_of_pc j cj q Hc Hsort n k Hk) as [b Hb].
      eapply tstep_can_step; eauto. by eapply ts_unlock.
Qed.

(** The ascending order at work: a car waiting for quadrant [k] is
    blocked by a car that holds [k], and that car, if it waits at all,
    waits for a quadrant above [k]. *)
Lemma locking_can_step (m : nat) : ∀ j q n k,
  pcs st !! j = Some (PLocking q n) → q !! n = Some k →
  4 - k ≤ Z.of_nat m → can_step.
Proof.
  induction m as [|m IH]; intros j q n k Hp Hk Hm.
  - destruct (car_of_pc _ _ Hp) as [cj Hc].
    destruct (inv_local _ _ HInv j cj _ Hc Hp) as [Hsort _].
    destruct (sorted_path _ _ Hsort) as (_ & Hr & _).
    rewrite Forall_forall in Hr.
    specialize (Hr k (list_elem_of_lookup_2 _ _ _ Hk)). lia.
  - destruct (car_of_pc _ _ Hp) as [cj Hc].
    destruct (inv_local _ _ HInv j cj _ Hc Hp) as [Hsort Hn].
    destruct (path_of_pc j cj q Hc Hsort n k Hk) as [b Hb].
    pose proof (lookup_lt_Some _ _ _ Hk) as Hlt.
    destruct b.
    2: { eapply tstep_can_step; eauto. by eapply ts_lock. }
    pose proof (zlookup_Some _ _ _ Hb) as Hkr.
    rewrite (inv_quad_len _ _ HInv) in Hkr.
    destruct (inv_quad _ _ HInv k) as (b & Hb' & Hheld); [lia|].
    assert (b = true) as -> by congruence. simpl in Hheld.
    destruct (count_cars_exists (fun _ p => bool_decide (k ∈ held p))
                cs (pcs st)) as (h & ch & ph & Hch & Hph & Hin).
    { fold (nheld k cs (pcs st)). lia. }
    apply bool_decide_eq_true_1 in Hin.
    destruct ph; simpl in Hin; try by apply not_elem_of_nil in Hin.
    + (* the holder is locking too *)
      destruct (inv_local _ _ HInv h ch _ Hch Hph) as [Hsort' Hn'].
      destruct (decide (i < length q0)%nat) as [Hi|Hi].
      * destruct (lookup_lt_is_Some_2 q0 i) as [k' Hk']; [lia|].
        apply elem_of_take in Hin as (i' & Hi' & Hlt').
        destruct (sorted_path _ _ Hsort') as (Hs' & _ & _).
        pose proof (sorted_lt_lookup q0 i' i k k' Hs' Hlt' Hi' Hk').
        apply (IH h q0 i k' Hph Hk'). lia.
      * eapply tstep_can_step; eauto. apply ts_locked. lia.
    + eapply crossing_can_step; eauto.
    + eapply crossing_can_step; eauto.
Qed.

(** A car counted in [flow_count] is not blocked for ever. *)
Lemma flow_can_step j pj :
  pcs st !! j = Some pj → in_flow pj = true → can_step.
Proof.
  intros Hp Hf. destruct (car_of_pc _ _ Hp) as [cj Hc].
  destruct pj; try done.
  - eapply holder_can_step; eauto.
  - destruct (sort_quads_returns cj) as [q Hq].
    eapply tstep_can_step; eauto. by constructor.
  - destruct (decide (i < length q)%nat) as [Hi|Hi].
    + destruct (lookup_lt_is_Some_2 q i) as [k Hk]; [lia|].
      apply (locking_can_step (Z.to_nat (4 - k)) j q i k Hp Hk). lia.
    + eapply tstep_can_step; eauto. apply ts_locked. lia.
  - eapply crossing_can_step; eauto.
  - eapply crossing_can_step; eauto.
  - eapply locker_can_step; eauto.
  - eapply holder_can_step; eauto.
Qed.

(** A car with the head-of-line token is not blocked for ever. *)
Lemma hol_can_step j pj :
  pcs st !! j = Some pj → in_hol pj = true → can_step.
Proof.
  intros Hp Hh. destruct (car_of_pc _ _ Hp) as [cj Hc].
  destruct (in_flow pj) eqn:Hf; [by eapply flow_can_step|].
  destruct pj; try done.
  - eapply locker_can_step; eauto.
  - eapply holder_can_step; eauto.
  - (* asleep: the owner's cars are counted, and one of them can move *)
    assert (Hown : current_direction (sh st) ≠ -1)
      by (apply (inv_waiting _ _ HInv); eauto).
    pose proof (inv_owner_counted _ _ HInv Hown) as Hpos.
    destruct (count_cars_exists _ cs (pcs st) Hpos) as (h & ch & ph & _ & Hph & Hin).
    apply andb_true_iff in Hin as [_ Hin].
    by eapply flow_can_step.
  - eapply locker_can_step; eauto.
  - eapply holder_can_step; eauto.
  - pose proof (valid_car_dir _ _ _ Hvalid Hc) as Hd.
    pose proof (inv_hol _ _ HInv (car_dir cj) Hd) as Hv.
    eapply tstep_can_step; eauto. by eapply ts_sem_post.
Qed.

(** Unless every car has returned, some car can take a step. *)
Lemma progress j pj : pcs st !! j = Some pj → pj ≠ PDone → can_step.
Proof.
  intros Hp Hnd. destruct (car_of_pc _ _ Hp) as [cj Hc].
  destruct (in_hol pj) eqn:Hh; [by eapply hol_can_step|].
  destruct pj; try done.
  - eapply tstep_can_step; eauto. constructor.
  - pose proof (valid_car_dir _ _ _ Hvalid Hc) as Hd.
    pose proof (inv_hol _ _ HInv (car_dir cj) Hd) as Hv.
    destruct (decide (0 < 1 - nhol (car_dir cj) cs (pcs st))) as [Hpos|Hno].
    + eapply tstep_can_step; eauto. by eapply ts_sem_wait.
    + destruct (count_cars_exists
                  (fun c p => (car_dir c =? car_dir cj) && in_hol p) cs (pcs st))
        as (h & ch & ph & _ & Hph & Hin).
      { fold (nhol (car_dir cj) cs (pcs st)). lia. }
      apply andb_true_iff in Hin as [_ Hin].
      by eapply hol_can_step.
Qed.

Lemma not_all_exited :
  all_exited st = false → ∃ j pj, pcs st !! j = Some pj ∧ pj ≠ PDone.
Proof.
  unfold all_exited. generalize (pcs st). intros ps.
  induction ps as [|p ps IH]; simpl; [done|].
  destruct p; simpl; try (intros _; by eexists 0%nat, _).
  intros H. destruct (IH H) as (j & pj & Hj & Hne). by exists (S j), pj.
Qed.

Lemma progress_or_exited :
  all_exited st = true ∨ ∃ j st', move cs st j = Some st'.
Proof.
  destruct (all_exited st) eqn:He; [by left|right].
  destruct (not_all_exited He) as (j & pj & Hp & Hne).
  by eapply progress.
Qed.

End Progress.

(** ** Every run is finite *)

Lemma sum_insert (f : pc → nat) ps i p p' :
  ps !! i = Some p →
  (sum_list_with f (<[i := p']> ps) + f p = sum_list_with f ps + f p')%nat.
Proof.
  revert i. induction ps as [|p0 ps IH]; intros [|i] Hp; simplify_eq/=.
  - lia.
  - specialize (IH i Hp). lia.
Qed.

Lemma weight_wake n p : (weight n (wake p) ≤ weight n p + 2)%nat.
Proof. destruct p; unfold weight; simpl; lia. Qed.

Lemma sum_wake n ps :
  (sum_list_with (weight n) (wake <$> ps)
   ≤ sum_list_with (weight n) ps + 2 * length ps)%nat.
Proof.
  induction ps as [|p ps IH]; [simpl; lia|].
  rewrite fmap_cons. cbn [sum_list_with length].
  pose proof (weight_wake n p). lia.
Qed.

(** A step without broadcast lowers the weight of the car that moves. *)
Lemma tstep_weight c s p p' s' n :
  tstep c s p p' s' false → (weight n p' < weight n p)%nat.
Proof.
  intros Ht. inversion Ht; subst; unfold weight; simpl; try lia.
  destruct (sorted_path _ _ H) as (_ & _ & Hlen). lia.
Qed.

Lemma tstep_weight_broadcast c s p p' s' n :
  tstep c s p p' s' true →
  (weight n p' + 2 * n + 5 ≤ weight n p)%nat.
Proof. intros Ht. inversion Ht; subst; unfold weight; simpl; lia. Qed.

(** Every call lowers the measure. *)
Lemma move_measure cs st i st' :
  move cs st i = Some st' → (measure st' < measure st)%nat.
Proof.
  intros (c & p & p' & s' & b & Hc & Hp & Ht & ->)%step_inv.
  apply thread_step_tstep in Ht.
  unfold measure. simpl. rewrite length_pcs_after.
  pose proof (sum_insert (weight (length (pcs st))) _ _ _ p' Hp) as Hsum.
  unfold pcs_after. destruct b.
  - pose proof (sum_wake (length (pcs st)) (<[i:=p']> (pcs st))) as Hw.
    rewrite length_insert in Hw.
    pose proof (tstep_weight_broadcast _ _ _ _ _ (length (pcs st)) Ht). lia.
  - pose proof (tstep_weight _ _ _ _ _ (length (pcs st)) Ht). lia.
Qed.

(** A spurious wake-up raises it by 2. *)
Lemma spurious_measure st i st' :
  spurious_wakeup st i = Some st' → (measure st' = measure st + 2)%nat.
Proof.
  intros [Hp ->]%spurious_wakeup_inv. unfold measure. simpl.
  rewrite length_insert.
  pose proof (sum_insert (weight (length (pcs st))) _ _ _ PCondWoken Hp) as Hsum.
  unfold weight in *. simpl in *. lia.
Qed.

Lemma run_measure cs sched : ∀ st st',
  run cs st sched = Some st' →
  (moves sched + measure st' ≤ measure st + 2 * wakeups sched)%nat.
Proof.
  induction sched as [|a sched IH]; intros st st' Hrun; simpl in Hrun.
  - injection Hrun as <-. simpl. lia.
  - destruct (step cs st a) as [st1|] eqn:Hstep; [|done]. simpl in Hrun.
    specialize (IH _ _ Hrun). destruct a as [i|i]; simpl in *.
    + pose proof (move_measure _ _ _ _ Hstep). lia.
    + pose proof (spurious_measure _ _ _ Hstep). lia.
Qed.

Lemma sum_replicate (f : pc → nat) n p :
  sum_list_with f (replicate n p) = (n * f p)%nat.
Proof. induction n as [|n IH]; simpl; [done|]. rewrite IH. lia. Qed.

Lemma measure_init cs : measure (init cs) = step_bound (length cs).
Proof.
  unfold measure, init, step_bound. simpl.
  rewrite length_replicate, sum_replicate. unfold weight. simpl. lia.
Qed.

(** From a state that satisfies the invariant the cars can all be run
    to their end. *)
Lemma run_to_exit cs (m : nat) : ∀ st,
  valid_manifest cs = true → Inv cs st → (measure st ≤ m)%nat →
  ∃ sched st', run cs st sched = Some st' ∧ all_exited st' = true.
Proof.
  induction m as [|m IH]; intros st Hv HI Hm.
  - destruct (progress_or_exited cs Hv st HI) as [He|(j & st1 & Hstep)].
    + by exists [], st.
    + pose proof (move_measure _ _ _ _ Hstep). lia.
  - destruct (progress_or_exited cs Hv st HI) as [He|(j & st1 & Hstep)].
    + by exists [], st.
    + pose proof (move_measure _ _ _ _ Hstep).
      destruct (IH st1 Hv) as (sched & st' & Hrun & He);
        [by eapply move_Inv | lia |].
      exists (Move j :: sched), st'. simpl. rewrite Hstep. by simpl.
Qed.

(** ** The wait-for relation has no cycle *)

Lemma waits_for_awaited cs st i j :
  Inv cs st → waits_for st i j → awaited st i < awaited st j.
Proof.
  intros HI (q & n & k & pj & Hi & Hk & Hj & Hin).
  destruct (lookup_lt_is_Some_2 cs i) as [ci Hci].
  { rewrite <- (inv_pcs _ _ HI). by eapply lookup_lt_Some. }
  destruct (lookup_lt_is_Some_2 cs j) as [cj Hcj].
  { rewrite <- (inv_pcs _ _ HI). by eapply lookup_lt_Some. }
  destruct (inv_local _ _ HI i ci _ Hci Hi) as [Hsort _].
  destruct (sorted_path _ _ Hsort) as (_ & Hr & _).
  rewrite Forall_forall in Hr.
  specialize (Hr k (list_elem_of_lookup_2 _ _ _ Hk)).
  unfold awaited. rewrite Hi, Hk, Hj.
  destruct pj; try lia.
  simpl in Hin. destruct (q0 !! i0) as [k'|] eqn:Hk'; [|lia].
  destruct (inv_local _ _ HI j cj _ Hcj Hj) as [Hsort' _].
  destruct (sorted_path _ _ Hsort') as (Hs' & _ & _).
  apply elem_of_take in Hin as (i' & Hi' & Hlt').
  apply (sorted_lt_lookup q0 i' i0 k k' Hs' Hlt' Hi' Hk').
Qed.

Lemma waits_for_acyclic cs st i :
  Inv cs st → ¬ tc (waits_for st) i i.
Proof.
  intros HI Hc.
  assert (H : ∀ a b, tc (waits_for st) a b → awaited st a < awaited st b).
  { intros a b Hab. induction Hab as [a b Hab|a b c0 Hab _ IH].
    - by eapply waits_for_awaited.
    - pose proof (waits_for_awaited cs st a b HI Hab). lia. }
  specialize (H i i Hc). lia.
Qed.

(** ** Runs of the program from its initial state *)

Lemma Inv_flow_inv cs st : Inv cs st → flow_inv (sh st).
Proof.
  intros HI.
  pose proof (inv_flow _ _ HI) as HF.
  pose proof (inv_flow_len _ _ HI) as Hlen.
  assert (Hn : ∀ d v, zlookup (flow_count (sh st)) d = Some v →
                      0 ≤ d < 4 ∧ v = nflow d cs (pcs st)).
  { intros d v Hv. pose proof (zlookup_Some _ _ _ Hv) as Hd.
    rewrite Hlen in Hd. split; [lia|].
    rewrite HF in Hv by lia. congruence. }
  repeat split.
  - done.
  - apply (inv_owner_range _ _ HI).
  - destruct (Hn d v H) as [_ ->]. apply count_cars_nonneg.
  - destruct (Hn d v H) as [Hd ->]. by apply (inv_owner_only _ _ HI).
  - intros Hfree d v Hv. destruct (Hn d v Hv) as [Hd ->].
    pose proof (count_cars_nonneg
                  (fun c p => (car_dir c =? d) && in_flow p) cs (pcs st)).
    pose proof (inv_owner_only _ _ HI d Hd). unfold nflow in *. lia.
  - intros Hzero.
    destruct (decide (current_direction (sh st) = -1)) as [|Hown]; [done|].
    pose proof (inv_owner_counted _ _ HI Hown) as Hpos.
    destruct (inv_owner_range _ _ HI) as [|Hr]; [done|].
    specialize (Hzero _ _ (HF _ Hr)). lia.
Qed.

(** C7. In every state a run reaches from the initial state the
    FlowState invariant holds, and whatever happens next (a Join and a
    Leave among the rest) leads to a state where it holds again. *)
Theorem flow_state_invariant (cs : list car_t) (sched : list action)
    (st : state) :
  valid_manifest cs = true → run cs (init cs) sched = Some st →
  flow_inv (sh st) ∧
  ∀ a st', step cs st a = Some st' → flow_inv (sh st').
Proof.
  intros Hv Hrun. pose proof (reachable_Inv _ _ _ Hv Hrun) as HI.
  split; [by eapply Inv_flow_inv|].
  intros a st' Hstep. eapply Inv_flow_inv, step_Inv; eauto.
Qed.

Lemma flow_state_invariant_witness :
  let st := mkState (mkShared [false; true; true; true] false 0
                       [1; 0; 0; 0] [0; 0; 0; 1])
                    [PSemWait; PStart; PSpin [1; 2; 3]; PCondWait; PStart;
                     PStart; PCondWait; PStart] in
  flow_inv (sh st) ∧
  ∀ a st', step cars st a = Some st' → flow_inv (sh st').
Proof.
  apply (flow_state_invariant cars
           (Move <$> [2; 2; 2; 2; 2; 2; 2; 2; 2; 2; 3; 3; 3; 3; 0; 6; 6; 6; 6]%nat));
    reflexivity.
Defined.

Lemma held_in_range cs st i c p k :
  Inv cs st → cs !! i = Some c → pcs st !! i = Some p →
  k ∈ held p → 0 ≤ k < 4.
Proof.
  intros HI Hc Hp Hk. pose proof (inv_local _ _ HI i c p Hc Hp) as Hok.
  assert (∀ q, sort_quads (get_quads c) (length (get_quads c)) = Some q →
               k ∈ q → 0 ≤ k < 4) as Hq.
  { intros q Hsort Hin. destruct (sorted_path _ _ Hsort) as (_ & Hr & _).
    rewrite Forall_forall in Hr. by apply Hr. }
  destruct p; simpl in *; try by apply not_elem_of_nil in Hk.
  - destruct Hok as [Hsort _]. apply (Hq q Hsort).
    apply elem_of_take in Hk as (j & Hj & _). by eapply list_elem_of_lookup_2.
  - by apply (Hq q).
  - destruct Hok as [Hsort _]. apply (Hq q Hsort).
    apply elem_of_take in Hk as (j & Hj & _). by eapply list_elem_of_lookup_2.
Qed.

(** C1. In every state a run reaches, each quadrant mutex is held by at
    most one car, it is locked exactly when some car holds it, no two
    cars hold the same quadrant, and a car that is crossing (spinning)
    holds the quadrants of its path. *)
Theorem quadrant_mutual_exclusion (cs : list car_t) (sched : list action)
    (st : state) :
  valid_manifest cs = true → run cs (init cs) sched = Some st →
  (∀ k, 0 ≤ k < 4 → nheld k cs (pcs st) ≤ 1) ∧
  (∀ k b, zlookup (quad (sh st)) k = Some b →
          (b = true ↔ ∃ i p, pcs st !! i = Some p ∧ k ∈ held p)) ∧
  (∀ i j pi pj k, i ≠ j → pcs st !! i = Some pi → pcs st !! j = Some pj →
                  k ∈ held pi → k ∉ held pj) ∧
  (∀ i c q, cs !! i = Some c → pcs st !! i = Some (PSpin q) →
            held (PSpin q) ≡ₚ get_quads c).
Proof.
  intros Hv Hrun. pose proof (reachable_Inv _ _ _ Hv Hrun) as HI.
  assert (Hcar : ∀ i p, pcs st !! i = Some p → ∃ c, cs !! i = Some c).
  { intros i p Hp%lookup_lt_Some. apply lookup_lt_is_Some_2.
    by rewrite <- (inv_pcs _ _ HI). }
  assert (Hone : ∀ k, 0 ≤ k < 4 → nheld k cs (pcs st) ≤ 1).
  { intros k Hk. destruct (inv_quad _ _ HI k Hk) as (b & _ & ->).
    destruct b; simpl; lia. }
  repeat split.
  - done.
  - intros ->. pose proof (zlookup_Some _ _ _ H) as Hk.
    rewrite (inv_quad_len _ _ HI) in Hk.
    destruct (inv_quad _ _ HI k) as (b & Hb & Hn); [lia|].
    assert (b = true) as -> by congruence. simpl in Hn.
    destruct (count_cars_exists (fun _ p => bool_decide (k ∈ held p))
                cs (pcs st)) as (i & c & p & _ & Hp & Hin).
    { fold (nheld k cs (pcs st)). lia. }
    exists i, p. split; [done|]. by apply bool_decide_eq_true_1 in Hin.
  - intros (i & p & Hp & Hin). destruct (Hcar i p Hp) as [c Hc].
    pose proof (held_in_range _ _ _ _ _ _ HI Hc Hp Hin) as Hk.
    destruct (inv_quad _ _ HI k Hk) as (b' & Hb' & Hn).
    assert (b' = b) as -> by congruence.
    assert (1 ≤ nheld k cs (pcs st)).
    { unfold nheld.
      apply (count_cars_ge_1 (fun _ p => bool_decide (k ∈ held p))
               cs (pcs st) i c p Hc Hp).
      by apply bool_decide_eq_true_2. }
    destruct b; [done|simpl in Hn; lia].
  - intros i j pi pj k Hij Hpi Hpj Hki Hkj.
    destruct (Hcar i pi Hpi) as [ci Hci]. destruct (Hcar j pj Hpj) as [cj Hcj].
    pose proof (held_in_range _ _ _ _ _ _ HI Hci Hpi Hki) as Hk.
    specialize (Hone k Hk).
    assert (2 ≤ nheld k cs (pcs st)); [|lia].
    unfold nheld.
    apply (count_cars_ge_2 (fun _ p => bool_decide (k ∈ held p))
             cs (pcs st) i j ci pi cj pj); auto;
      by apply bool_decide_eq_true_2.
  - intros i c q Hc Hp. simpl.
    pose proof (inv_local _ _ HI i c _ Hc Hp) as Hsort. simpl in Hsort.
    destruct (sort_quads_full (get_quads c)) as (q' & Hq' & _ & _ & Hperm).
    congruence.
Qed.

Lemma quadrant_mutual_exclusion_witness :
  let st := mkState (mkShared [false; true; true; true] false 0
                       [1; 0; 0; 0] [0; 0; 0; 1])
                    [PSemWait; PStart; PSpin [1; 2; 3]; PCondWait; PStart;
                     PStart; PCondWait; PStart] in
  (∀ k, 0 ≤ k < 4 → nheld k cars (pcs st) ≤ 1) ∧
  (∀ k b, zlookup (quad (sh st)) k = Some b →
          (b = true ↔ ∃ i p, pcs st !! i = Some p ∧ k ∈ held p)) ∧
  (∀ i j pi pj k, i ≠ j → pcs st !! i = Some pi → pcs st !! j = Some pj →
                  k ∈ held pi → k ∉ held pj) ∧
  (∀ i c q, cars !! i = Some c → pcs st !! i = Some (PSpin q) →
            held (PSpin q) ≡ₚ get_quads c).
Proof.
  apply (quadrant_mutual_exclusion cars
           (Move <$> [2; 2; 2; 2; 2; 2; 2; 2; 2; 2; 3; 3; 3; 3; 0; 6; 6; 6; 6]%nat));
    reflexivity.
Defined.

(** C2. From every state a run reaches, unless all cars have exited
    some car can make its next call; a run makes at most [step_bound]
    calls, and two more for each spurious wake-up, so it cannot go on
    for ever; the cars can be run on until all have exited; a car about to lock a quadrant holds only lower ones; and
    the wait-for relation among cars at the quadrant locks has no
    cycle. *)
Theorem deadlock_freedom (cs : list car_t) (sched : list action) (st : state) :
  valid_manifest cs = true → run cs (init cs) sched = Some st →
  (all_exited st = true ∨ ∃ j st', move cs st j = Some st') ∧
  (moves sched ≤ step_bound (length cs) + 2 * wakeups sched)%nat ∧
  (∃ sched' st', run cs st sched' = Some st' ∧ all_exited st' = true) ∧
  (∀ i q n k k', pcs st !! i = Some (PLocking q n) → q !! n = Some k →
                 k' ∈ held (PLocking q n) → k' < k) ∧
  (∀ i, ¬ tc (waits_for st) i i).
Proof.
  intros Hv Hrun. pose proof (reachable_Inv _ _ _ Hv Hrun) as HI.
  split; [by apply progress_or_exited|].
  split.
  { pose proof (run_measure _ _ _ _ Hrun) as Hm.
    rewrite measure_init in Hm. lia. }
  split; [by eapply (run_to_exit cs (measure st))|].
  split; [|intros i; by eapply waits_for_acyclic].
  intros i q n k k' Hp Hk Hin. simpl in Hin.
  destruct (lookup_lt_is_Some_2 cs i) as [c Hc].
  { rewrite <- (inv_pcs _ _ HI). by eapply lookup_lt_Some. }
  destruct (inv_local _ _ HI i c _ Hc Hp) as [Hsort _].
  destruct (sorted_path _ _ Hsort) as (Hs & _ & _).
  apply elem_of_take in Hin as (n' & Hn' & Hlt).
  apply (sorted_lt_lookup q n' n k' k Hs Hlt Hn' Hk).
Qed.

Lemma deadlock_freedom_witness :
  let sched : list action :=
    (Move <$> [2; 2; 2; 2; 2; 2; 2; 2; 2; 2; 3; 3; 3; 3; 0; 6; 6; 6; 6]%nat)
    ++ [Spurious 3; Move 3; Move 3] in
  let st := mkState (mkShared [false; true; true; true] false 0
                       [1; 0; 0; 0] [0; 0; 0; 1])
                    [PSemWait; PStart; PSpin [1; 2; 3]; PCondWait; PStart;
                     PStart; PCondWait; PStart] in
  (all_exited st = true ∨ ∃ j st', move cars st j = Some st') ∧
  (moves sched ≤ step_bound (length cars) + 2 * wakeups sched)%nat ∧
  (∃ sched' st', run cars st sched' = Some st' ∧ all_exited st' = true) ∧
  (∀ i q n k k', pcs st !! i = Some (PLocking q n) → q !! n = Some k →
                 k' ∈ held (PLocking q n) → k' < k) ∧
  (∀ i, ¬ tc (waits_for st) i i).
Proof.
  apply (deadlock_freedom cars
           ((Move <$> [2; 2; 2; 2; 2; 2; 2; 2; 2; 2; 3; 3; 3; 3; 0; 6; 6; 6; 6]%nat)
            ++ [Spurious 3; Move 3; Move 3]));
    reflexivity.
Defined.

(** ** A car whose origin is no direction *)








(** ** Further invariants: tokens, the critical section, sleepers *)

Lemma holds_turn_wake_eq p : holds_turn (wake p) = holds_turn p.
Proof. by destruct p. Qed.

Lemma Inv2_init cs : Inv2 cs (init cs).
Proof.
  split; simpl.
  - intros d Hd. unfold nhol. rewrite count_cars_start; [lia|].
    intros c. apply andb_false_r.
  - unfold nturn. by rewrite count_cars_start.
  - intros i c _ Hp. apply lookup_replicate in Hp as [? _]. done.
Qed.

(** Where a car is asleep after a step, it was asleep before, unless it
    is the car that moved and went to sleep. *)
Lemma asleep_after ps i j p' b :
  (i < length ps)%nat →
  pcs_after ps i p' b !! j = Some PCondWait →
  b = false ∧ ((j = i ∧ p' = PCondWait) ∨ (j ≠ i ∧ ps !! j = Some PCondWait)).
Proof.
  intros Hi Hj. destruct b.
  - unfold pcs_after in Hj. rewrite list_lookup_fmap in Hj.
    destruct (<[i:=p']> ps !! j) as [x|]; [|done].
    simpl in Hj. by destruct x.
  - split; [done|]. destruct (decide (j = i)) as [->|Hne].
    + rewrite pcs_after_same_quiet in Hj by done. left. split; congruence.
    + rewrite pcs_after_other_quiet in Hj by done. by right.
Qed.

Section Preservation2.

Variable cs : list car_t.
Hypothesis Hvalid : valid_manifest cs = true.

Variables (st : state) (i : nat) (c : car_t).
Hypothesis HInv : Inv cs st.
Hypothesis HInv2 : Inv2 cs st.
Hypothesis Hc : cs !! i = Some c.

Lemma step2_hol p p' s' b d :
  pcs st !! i = Some p → tstep c (sh st) p p' s' b → 0 ≤ d < 4 →
  nhol d cs (pcs_after (pcs st) i p' b) ≤ 1.
Proof.
  intros Hp Ht Hd.
  pose proof (inv2_hol _ _ HInv2 d Hd) as Hold.
  pose proof (inv_hol _ _ HInv d Hd) as Hsem.
  unfold nhol in *.
  rewrite (step_count (fun c p => (car_dir c =? d) && in_hol p) cs st i c p p' b)
    by (done || (intros; by rewrite in_hol_wake)).
  destruct (Z.eqb_spec (car_dir c) d) as [Heq|Hne]; simpl; [|lia].
  subst d. inversion Ht; subst; simpl; try lia.
  rewrite Hsem in H. injection H as Hv. lia.
Qed.

Lemma step2_turn p p' s' b :
  pcs st !! i = Some p → tstep c (sh st) p p' s' b →
  nturn cs (pcs_after (pcs st) i p' b) = Z.b2z (turn_lock s').
Proof.
  intros Hp Ht.
  pose proof (inv2_turn _ _ HInv2) as Hold.
  assert (Hheld : holds_turn p = true →
                  nturn cs (pcs st) = 1 ∧ turn_lock (sh st) = true).
  { intros Hh.
    assert (1 ≤ nturn cs (pcs st)).
    { unfold nturn.
      by apply (count_cars_ge_1 (fun _ p => holds_turn p) cs (pcs st) i c p). }
    destruct (turn_lock (sh st)); simpl in Hold; split; (done || lia). }
  unfold nturn in *.
  rewrite (step_count (fun _ p => holds_turn p) cs st i c p p' b)
    by (done || (intros; by rewrite holds_turn_wake_eq)).
  inversion Ht; subst; simpl in *;
    try (destruct Hheld as [Hn Hl]; [done|]);
    try match goal with H : turn_lock _ = _ |- _ => rewrite H in * end;
    simpl in *; lia.
Qed.

Lemma step2_asleep p p' s' b :
  pcs st !! i = Some p → tstep c (sh st) p p' s' b →
  ∀ j cj, cs !! j = Some cj →
          pcs_after (pcs st) i p' b !! j = Some PCondWait →
          current_direction s' ≠ car_dir cj.
Proof.
  intros Hp Ht j cj Hcj Hj.
  pose proof (lookup_lt_Some _ _ _ Hp) as Hi.
  destruct (asleep_after _ _ _ _ _ Hi Hj) as [-> [[-> ->]|[Hne Hold]]].
  - assert (cj = c) as -> by congruence.
    inversion Ht; subst. done.
  - pose proof (inv2_asleep _ _ HInv2 j cj Hcj Hold) as Hneq.
    assert (Hown : current_direction (sh st) ≠ -1)
      by (apply (inv_waiting _ _ HInv); eauto).
    inversion Ht; subst; simpl; done.
Qed.

Lemma move_Inv2_tstep p p' s' b :
  pcs st !! i = Some p → tstep c (sh st) p p' s' b →
  Inv2 cs (mkState s' (pcs_after (pcs st) i p' b)).
Proof.
  intros Hp Ht. split; simpl.
  - intros d Hd. by apply (step2_hol p p' s' b d).
  - by apply (step2_turn p).
  - by apply (step2_asleep p).
Qed.

End Preservation2.

Lemma move_Inv2 cs st i st' :
  valid_manifest cs = true → Inv cs st → Inv2 cs st →
  move cs st i = Some st' → Inv2 cs st'.
Proof.
  intros Hv HI HI2 (c & p & p' & s' & b & Hc & Hp & Ht & ->)%step_inv.
  apply thread_step_tstep in Ht. by eapply move_Inv2_tstep.
Qed.

Lemma spurious_Inv2 cs st i st' :
  Inv cs st → Inv2 cs st → spurious_wakeup st i = Some st' → Inv2 cs st'.
Proof.
  intros HI HI2 [Hp ->]%spurious_wakeup_inv.
  pose proof (lookup_lt_Some _ _ _ Hp) as Hi.
  destruct (lookup_lt_is_Some_2 cs i) as [c Hc];
    [by rewrite <- (inv_pcs _ _ HI)|].
  assert (Hcount : ∀ P : car_t → pc → bool,
            P c PCondWoken = P c PCondWait →
            count_cars P cs (<[i := PCondWoken]> (pcs st))
            = count_cars P cs (pcs st)).
  { intros P HP. rewrite (count_cars_insert P cs (pcs st) i c PCondWait) by done.
    rewrite HP. lia. }
  destruct HI2. split; simpl.
  - intros d Hd. unfold nhol. rewrite Hcount by done. by apply inv2_hol0.
  - unfold nturn. by rewrite Hcount.
  - intros j cj Hcj Hj. apply (inv2_asleep0 j cj Hcj).
    destruct (decide (j = i)) as [->|Hne].
    + by rewrite list_lookup_insert_eq in Hj.
    + by rewrite list_lookup_insert_ne in Hj.
Qed.

Lemma run_Inv2 cs sched : ∀ st st',
  valid_manifest cs = true → Inv cs st → Inv2 cs st →
  run cs st sched = Some st' → Inv2 cs st'.
Proof.
  induction sched as [|a sched IH]; intros st st' Hv HI HI2 Hrun;
    simpl in Hrun.
  - congruence.
  - destruct (step cs st a) as [st1|] eqn:Hstep; [|done]. simpl in Hrun.
    apply (IH st1 st' Hv); [by apply (step_Inv cs st a) | | done].
    destruct a as [i|i]; simpl in Hstep.
    + by apply (move_Inv2 cs st i).
    + by apply (spurious_Inv2 cs st i).
Qed.

Lemma reachable_Inv2 cs sched st :
  valid_manifest cs = true → run cs (init cs) sched = Some st → Inv2 cs st.
Proof.
  intros Hv Hrun. eapply run_Inv2; eauto using Inv_init, Inv2_init.
Qed.

(** ** More about runs: who can be where *)

Lemma count_cars_le (P Q : car_t → pc → bool) cs ps :
  (∀ c p, P c p = true → Q c p = true) →
  count_cars P cs ps ≤ count_cars Q cs ps.
Proof.
  intros HPQ. revert ps. induction cs as [|c cs IH]; intros [|p ps]; simpl;
    try lia.
  specialize (IH ps). specialize (HPQ c p).
  destruct (P c p), (Q c p); simpl; try lia; by discriminate HPQ.
Qed.

Lemma count_cars_done P cs ps :
  (∀ c, P c PDone = false) →
  forallb (fun p => match p with PDone => true | _ => false end) ps = true →
  count_cars P cs ps = 0.
Proof.
  intros HP. revert ps. induction cs as [|c cs IH]; intros [|p ps]; simpl;
    try done.
  intros [Hp Hps]%andb_true_iff. destruct p; try done.
  by rewrite HP, IH.
Qed.

Lemma all_exited_lookup st j p :
  all_exited st = true → pcs st !! j = Some p → p = PDone.
Proof.
  unfold all_exited. rewrite forallb_forall. intros H Hp.
  assert (Hin : In p (pcs st))
    by (apply list_elem_of_In; eapply list_elem_of_lookup_2; eauto).
  specialize (H p Hin). by destruct p.
Qed.

Lemma in_flow_in_hol p : in_flow p = true → in_hol p = true.
Proof. by destruct p. Qed.

Lemma held_in_flow p k : k ∈ held p → in_flow p = true.
Proof. destruct p; simpl; try done; by intros ?%not_elem_of_nil. Qed.

Lemma tstep_move cs st j cj pj p' s' b :
  cs !! j = Some cj → pcs st !! j = Some pj →
  tstep cj (sh st) pj p' s' b →
  move cs st j = Some (mkState s' (pcs_after (pcs st) j p' b)).
Proof.
  intros Hc Hp Ht%thread_step_tstep. unfold move.
  rewrite Hc, Hp. simpl. by rewrite Ht.
Qed.

Lemma four_cells {A} (l : list A) (a b c d : A) :
  length l = 4%nat →
  zlookup l 0 = Some a → zlookup l 1 = Some b →
  zlookup l 2 = Some c → zlookup l 3 = Some d →
  l = [a; b; c; d].
Proof.
  destruct l as [|x0 [|x1 [|x2 [|x3 [|]]]]]; try done.
  unfold zlookup. simpl. by intros _ [= ->] [= ->] [= ->] [= ->].
Qed.

Section Reachable.

Variable cs : list car_t.
Hypothesis Hvalid : valid_manifest cs = true.
Variable st : state.
Hypothesis HI : Inv cs st.
Hypothesis HI2 : Inv2 cs st.

(** Two cars of one direction are not both past [sem_wait]. *)
Lemma hol_unique i j ci cj pi pj :
  i ≠ j → cs !! i = Some ci → cs !! j = Some cj →
  car_dir ci = car_dir cj →
  pcs st !! i = Some pi → pcs st !! j = Some pj →
  in_hol pi = true → in_hol pj = true → False.
Proof.
  intros Hij Hci Hcj Hdir Hpi Hpj Hi Hj.
  pose proof (valid_car_dir _ _ _ Hvalid Hci) as Hd.
  pose proof (inv2_hol _ _ HI2 (car_dir ci) Hd) as Hone.
  assert (2 ≤ nhol (car_dir ci) cs (pcs st)); [|lia].
  unfold nhol.
  apply (count_cars_ge_2 (fun c p => (car_dir c =? car_dir ci) && in_hol p)
           cs (pcs st) i j ci pi cj pj); auto.
  - by rewrite Z.eqb_refl, Hi.
  - by rewrite <- Hdir, Z.eqb_refl, Hj.
Qed.

(** A car counted in [flow_count] is of the owning direction. *)
Lemma flow_owner i c p :
  cs !! i = Some c → pcs st !! i = Some p → in_flow p = true →
  current_direction (sh st) = car_dir c.
Proof.
  intros Hc Hp Hf.
  pose proof (valid_car_dir _ _ _ Hvalid Hc) as Hd.
  apply (inv_owner_only _ _ HI _ Hd).
  assert (1 ≤ nflow (car_dir c) cs (pcs st)); [|lia].
  unfold nflow.
  apply (count_cars_ge_1 (fun c0 p => (car_dir c0 =? car_dir c) && in_flow p)
           cs (pcs st) i c p Hc Hp).
  by rewrite Z.eqb_refl, Hf.
Qed.

Lemma flow_unique i j ci cj pi pj :
  i ≠ j → cs !! i = Some ci → cs !! j = Some cj →
  pcs st !! i = Some pi → pcs st !! j = Some pj →
  in_flow pi = true → in_flow pj = true → False.
Proof.
  intros Hij Hci Hcj Hpi Hpj Hi Hj.
  pose proof (flow_owner i ci pi Hci Hpi Hi) as Hoi.
  pose proof (flow_owner j cj pj Hcj Hpj Hj) as Hoj.
  apply (hol_unique i j ci cj pi pj); auto using in_flow_in_hol.
  congruence.
Qed.

Lemma nflow_le_nhol d : nflow d cs (pcs st) ≤ nhol d cs (pcs st).
Proof.
  apply count_cars_le. intros c p [-> Hf]%andb_true_iff.
  by rewrite (in_flow_in_hol _ Hf).
Qed.

Lemma car_at j pj : pcs st !! j = Some pj → ∃ cj, cs !! j = Some cj.
Proof.
  intros Hj%lookup_lt_Some. apply lookup_lt_is_Some_2.
  by rewrite <- (inv_pcs _ _ HI).
Qed.

(** The quadrant a car is about to lock is free. *)
Lemma next_quadrant_free i q n k :
  pcs st !! i = Some (PLocking q n) → q !! n = Some k →
  zlookup (quad (sh st)) k = Some false.
Proof.
  intros Hp Hk. destruct (car_at _ _ Hp) as [c Hc].
  destruct (inv_local _ _ HI i c _ Hc Hp) as [Hsort _].
  destruct (sorted_path _ _ Hsort) as (Hs & Hr & _).
  rewrite Forall_forall in Hr.
  pose proof (Hr k (list_elem_of_lookup_2 _ _ _ Hk)) as Hkr.
  destruct (inv_quad _ _ HI k Hkr) as (b & Hb & Hn).
  destruct b; [|done]. simpl in Hn.
  destruct (count_cars_exists (fun _ p => bool_decide (k ∈ held p))
              cs (pcs st)) as (h & ch & ph & Hch & Hph & Hin).
  { fold (nheld k cs (pcs st)). lia. }
  apply bool_decide_eq_true_1 in Hin.
  destruct (decide (h = i)) as [->|Hne].
  - assert (ph = PLocking q n) as -> by congruence. simpl in Hin.
    by destruct (sorted_lt_not_in_take q n k Hs Hk).
  - destruct (flow_unique h i ch c ph (PLocking q n)); auto.
    by eapply held_in_flow.
Qed.

(** The count of a car at its [ExitIntersection] update is 1. *)
Lemma leaving_count i c :
  cs !! i = Some c → pcs st !! i = Some PLeave →
  zlookup (flow_count (sh st)) (car_dir c) = Some 1.
Proof.
  intros Hc Hp.
  pose proof (valid_car_dir _ _ _ Hvalid Hc) as Hd.
  rewrite (inv_flow _ _ HI _ Hd). f_equal.
  pose proof (nflow_le_nhol (car_dir c)).
  pose proof (inv2_hol _ _ HI2 _ Hd).
  assert (1 ≤ nflow (car_dir c) cs (pcs st)); [|lia].
  unfold nflow.
  apply (count_cars_ge_1 (fun c0 p => (car_dir c0 =? car_dir c) && in_flow p)
           cs (pcs st) i c PLeave Hc Hp).
  by rewrite Z.eqb_refl.
Qed.

End Reachable.

(** ** Properties of every run, beyond the specification's *)

(** X1. The head-of-line semaphore of a direction is binary: in every
    state a run reaches its value is 0 or 1, it is 0 exactly when a car
    of that direction is between its [sem_wait] and its [sem_post], and
    no two cars of one direction are there together. *)
Theorem head_of_line_exclusive (cs : list car_t) (sched : list action)
    (st : state) :
  valid_manifest cs = true → run cs (init cs) sched = Some st →
  (∀ d v, zlookup (hol_sem (sh st)) d = Some v →
          (v = 0 ∨ v = 1) ∧
          (v = 0 ↔ ∃ i c p, cs !! i = Some c ∧ car_dir c = d ∧
                            pcs st !! i = Some p ∧ in_hol p = true)) ∧
  (∀ i j ci cj pi pj,
     i ≠ j → cs !! i = Some ci → cs !! j = Some cj →
     car_dir ci = car_dir cj →
     pcs st !! i = Some pi → pcs st !! j = Some pj →
     in_hol pi = true → in_hol pj = false).
Proof.
  intros Hv Hrun.
  pose proof (reachable_Inv _ _ _ Hv Hrun) as HI.
  pose proof (reachable_Inv2 _ _ _ Hv Hrun) as HI2.
  split.
  - intros d v Hlook. pose proof (zlookup_Some _ _ _ Hlook) as Hd.
    rewrite (inv_hol_len _ _ HI) in Hd.
    assert (Hd' : 0 ≤ d < 4) by lia.
    rewrite (inv_hol _ _ HI d Hd') in Hlook. injection Hlook as <-.
    pose proof (inv2_hol _ _ HI2 d Hd') as Hone.
    pose proof (count_cars_nonneg
                  (fun c p => (car_dir c =? d) && in_hol p) cs (pcs st)) as H0.
    fold (nhol d cs (pcs st)) in H0.
    split; [lia|]. split.
    + intros Hz.
      destruct (count_cars_exists
                  (fun c p => (car_dir c =? d) && in_hol p) cs (pcs st))
        as (i & c & p & Hc & Hp & [Hdir Hin]%andb_true_iff).
      { fold (nhol d cs (pcs st)). lia. }
      apply Z.eqb_eq in Hdir. by exists i, c, p.
    + intros (i & c & p & Hc & Hdir & Hp & Hin).
      assert (1 ≤ nhol d cs (pcs st)); [|lia].
      unfold nhol.
      apply (count_cars_ge_1 (fun c p => (car_dir c =? d) && in_hol p)
               cs (pcs st) i c p Hc Hp).
      by rewrite Hdir, Z.eqb_refl, Hin.
  - intros i j ci cj pi pj Hij Hci Hcj Hdir Hpi Hpj Hin.
    destruct (in_hol pj) eqn:Hj; [|done].
    by destruct (hol_unique cs Hv st HI2 i j ci cj pi pj).
Qed.

Lemma head_of_line_exclusive_witness :
  let st := mkState (mkShared [false; true; true; true] false 0
                       [1; 0; 0; 0] [0; 0; 0; 1])
                    [PSemWait; PStart; PSpin [1; 2; 3]; PCondWait; PStart;
                     PStart; PCondWait; PStart] in
  (∀ d v, zlookup (hol_sem (sh st)) d = Some v →
          (v = 0 ∨ v = 1) ∧
          (v = 0 ↔ ∃ i c p, cars !! i = Some c ∧ car_dir c = d ∧
                            pcs st !! i = Some p ∧ in_hol p = true)) ∧
  (∀ i j ci cj pi pj,
     i ≠ j → cars !! i = Some ci → cars !! j = Some cj →
     car_dir ci = car_dir cj →
     pcs st !! i = Some pi → pcs st !! j = Some pj →
     in_hol pi = true → in_hol pj = false).
Proof.
  apply (head_of_line_exclusive cars
           (Move <$> [2; 2; 2; 2; 2; 2; 2; 2; 2; 2; 3; 3; 3; 3; 0; 6; 6; 6; 6]%nat));
    reflexivity.
Defined.

(** X2. Cars of one direction never flow together: in every state a
    run reaches each [flow_count] is 0 or 1, and a car that evaluates
    the loop condition of [ArriveIntersection] never finds its own
    direction the owner, so the [flow_count[d]++] branch is not
    taken. *)
Theorem same_direction_never_joins (cs : list car_t) (sched : list action)
    (st : state) :
  valid_manifest cs = true → run cs (init cs) sched = Some st →
  (∀ d v, zlookup (flow_count (sh st)) d = Some v → v = 0 ∨ v = 1) ∧
  (∀ i c, cs !! i = Some c → pcs st !! i = Some PWhile →
          current_direction (sh st) ≠ car_dir c ∧
          ∀ p' s' b, thread_step c PWhile (sh st) = Some (p', s', b) →
                     p' = PCondWait ∨
                     (p' = PArriveUnlock ∧
                      zlookup (flow_count s') (car_dir c) = Some 1)).
Proof.
  intros Hv Hrun.
  pose proof (reachable_Inv _ _ _ Hv Hrun) as HI.
  pose proof (reachable_Inv2 _ _ _ Hv Hrun) as HI2.
  split.
  - intros d v Hlook. pose proof (zlookup_Some _ _ _ Hlook) as Hd.
    rewrite (inv_flow_len _ _ HI) in Hd.
    assert (Hd' : 0 ≤ d < 4) by lia.
    rewrite (inv_flow _ _ HI d Hd') in Hlook. injection Hlook as <-.
    pose proof (nflow_le_nhol cs st d).
    pose proof (inv2_hol _ _ HI2 d Hd').
    pose proof (count_cars_nonneg
                  (fun c p => (car_dir c =? d) && in_flow p) cs (pcs st)).
    unfold nflow in *. lia.
  - intros i c Hc Hp.
    pose proof (valid_car_dir _ _ _ Hv Hc) as Hd.
    assert (Hne : current_direction (sh st) ≠ car_dir c).
    { intros Hown.
      assert (Hpos : 0 < nflow (current_direction (sh st)) cs (pcs st))
        by (apply (inv_owner_counted _ _ HI); lia).
      destruct (count_cars_exists _ cs (pcs st) Hpos)
        as (h & ch & ph & Hch & Hph & [Hdir Hin]%andb_true_iff).
      apply Z.eqb_eq in Hdir.
      assert (h ≠ i) by (intros ->; rewrite Hp in Hph; by injection Hph as <-).
      apply (hol_unique cs Hv st HI2 h i ch c ph PWhile); auto.
      - congruence.
      - by apply in_flow_in_hol. }
    split; [done|].
    intros p' s' b Ht%thread_step_tstep.
    inversion Ht; subst; auto.
    + right. split; [done|]. simpl. apply zlookup_zupdate_eq.
      rewrite (inv_flow_len _ _ HI). lia.
    + done.
Qed.

Lemma same_direction_never_joins_witness :
  let st := mkState (mkShared [false; false; false; false] true 2
                       [0; 0; 1; 0] [0; 1; 0; 1])
                    [PStart; PStart; PTurnLock; PArriveUnlock; PStart; PStart;
                     PStart; PStart] in
  (∀ d v, zlookup (flow_count (sh st)) d = Some v → v = 0 ∨ v = 1) ∧
  (∀ i c, cars !! i = Some c → pcs st !! i = Some PWhile →
          current_direction (sh st) ≠ car_dir c ∧
          ∀ p' s' b, thread_step c PWhile (sh st) = Some (p', s', b) →
                     p' = PCondWait ∨
                     (p' = PArriveUnlock ∧
                      zlookup (flow_count s') (car_dir c) = Some 1)).
Proof.
  apply (same_direction_never_joins cars (Move <$> [3; 3; 3; 3; 2; 2]%nat));
    reflexivity.
Defined.

(** X3. At most one car is inside the intersection: in every state a
    run reaches, a car between its update of [flow_count] in
    [ArriveIntersection] and the one in [ExitIntersection] is of the
    owning direction, and no second car is between the two. *)
Theorem one_car_in_intersection (cs : list car_t) (sched : list action)
    (st : state) :
  valid_manifest cs = true → run cs (init cs) sched = Some st →
  ∀ i ci pi, cs !! i = Some ci → pcs st !! i = Some pi → in_flow pi = true →
    current_direction (sh st) = car_dir ci ∧
    ∀ j pj, j ≠ i → pcs st !! j = Some pj → in_flow pj = false.
Proof.
  intros Hv Hrun i ci pi Hci Hpi Hin.
  pose proof (reachable_Inv _ _ _ Hv Hrun) as HI.
  pose proof (reachable_Inv2 _ _ _ Hv Hrun) as HI2.
  split; [by apply (flow_owner cs Hv st HI i ci pi)|].
  intros j pj Hij Hpj. destruct (in_flow pj) eqn:Hj; [|done].
  destruct (car_at cs st HI j pj Hpj) as [cj Hcj].
  by destruct (flow_unique cs Hv st HI HI2 j i cj ci pj pi).
Qed.

Lemma one_car_in_intersection_witness :
  let st := mkState (mkShared [false; true; true; true] false 0
                       [1; 0; 0; 0] [0; 0; 0; 1])
                    [PSemWait; PStart; PSpin [1; 2; 3]; PCondWait; PStart;
                     PStart; PCondWait; PStart] in
  current_direction (sh st) = 0 ∧
  ∀ j pj, j ≠ 2%nat → pcs st !! j = Some pj → in_flow pj = false.
Proof.
  intros st.
  refine (one_car_in_intersection cars
            (Move <$> [2; 2; 2; 2; 2; 2; 2; 2; 2; 2; 3; 3; 3; 3; 0; 6; 6; 6; 6]%nat)
            st _ _ 2%nat
            (mkCar 3 (33 # 10) (mkDirections "^"%char "<"%char) 2)
            (PSpin [1; 2; 3]) _ _ _); reflexivity.
Defined.

(** X4. The quadrant mutexes are never contended: in every state a run
    reaches, the quadrant a car is about to lock in [lock_quads] is
    unlocked, so the call returns at once. *)
Theorem quadrant_locks_uncontended (cs : list car_t) (sched : list action)
    (st : state) :
  valid_manifest cs = true → run cs (init cs) sched = Some st →
  ∀ i q n k, pcs st !! i = Some (PLocking q n) → q !! n = Some k →
    zlookup (quad (sh st)) k = Some false ∧
    ∃ st', move cs st i = Some st' ∧
           pcs st' !! i = Some (PLocking q (S n)) ∧
           zlookup (quad (sh st')) k = Some true.
Proof.
  intros Hv Hrun i q n k Hp Hk.
  pose proof (reachable_Inv _ _ _ Hv Hrun) as HI.
  pose proof (reachable_Inv2 _ _ _ Hv Hrun) as HI2.
  pose proof (next_quadrant_free cs Hv st HI HI2 i q n k Hp Hk) as Hfree.
  split; [done|].
  destruct (car_at cs st HI i _ Hp) as [c Hc].
  pose proof (lookup_lt_Some _ _ _ Hk) as Hn.
  pose proof (lookup_lt_Some _ _ _ Hp) as Hi.
  eexists. split.
  - apply (tstep_move cs st i c (PLocking q n) (PLocking q (S n))
             (set_quad (sh st) (zupdate (quad (sh st)) k true)) false Hc Hp).
    by apply (ts_lock c (sh st) q n k).
  - simpl. split; [by apply pcs_after_same_quiet|].
    apply zlookup_zupdate_eq. by apply (zlookup_Some _ _ false).
Qed.

Lemma quadrant_locks_uncontended_witness :
  let st := mkState (mkShared [false; true; false; false] false 0
                       [1; 0; 0; 0] [0; 1; 0; 1])
                    [PSemWait; PStart; PLocking [1; 2; 3] 1; PCondWait; PStart;
                     PStart; PStart; PStart] in
  zlookup (quad (sh st)) 2 = Some false ∧
  ∃ st', move cars st 2 = Some st' ∧
         pcs st' !! 2%nat = Some (PLocking [1; 2; 3] 2) ∧
         zlookup (quad (sh st')) 2 = Some true.
Proof.
  intros st.
  refine (quadrant_locks_uncontended cars
            (Move <$> [2; 2; 2; 2; 2; 2; 2; 3; 3; 3; 3; 0]%nat)
            st _ _ 2%nat [1; 2; 3] 1%nat 2 _ _); reflexivity.
Defined.

(** X5. [turn_lock] excludes: in every state a run reaches it is locked
    exactly when some car is between locking it and unlocking it (or
    waiting on [turn_cv]), and no two cars are. *)
Theorem turn_lock_exclusive (cs : list car_t) (sched : list action)
    (st : state) :
  valid_manifest cs = true → run cs (init cs) sched = Some st →
  (turn_lock (sh st) = true ↔
   ∃ i p, pcs st !! i = Some p ∧ holds_turn p = true) ∧
  (∀ i j pi pj, i ≠ j → pcs st !! i = Some pi → pcs st !! j = Some pj →
                holds_turn pi = true → holds_turn pj = false).
Proof.
  intros Hv Hrun.
  pose proof (reachable_Inv _ _ _ Hv Hrun) as HI.
  pose proof (reachable_Inv2 _ _ _ Hv Hrun) as HI2.
  pose proof (inv2_turn _ _ HI2) as Hn.
  split; [split|].
  - apply (inv_turn _ _ HI).
  - intros (i & p & Hp & Hh). destruct (car_at cs st HI i p Hp) as [c Hc].
    assert (1 ≤ nturn cs (pcs st)).
    { unfold nturn.
      by apply (count_cars_ge_1 (fun _ p => holds_turn p) cs (pcs st) i c p). }
    destruct (turn_lock (sh st)); [done|simpl in Hn; lia].
  - intros i j pi pj Hij Hpi Hpj Hi.
    destruct (holds_turn pj) eqn:Hj; [|done].
    destruct (car_at cs st HI i pi Hpi) as [ci Hci].
    destruct (car_at cs st HI j pj Hpj) as [cj Hcj].
    assert (2 ≤ nturn cs (pcs st)).
    { unfold nturn.
      by apply (count_cars_ge_2 (fun _ p => holds_turn p)
                  cs (pcs st) i j ci pi cj pj). }
    destruct (turn_lock (sh st)); simpl in Hn; lia.
Qed.

Lemma turn_lock_exclusive_witness :
  let st := mkState (mkShared [false; false; false; false] true 2
                       [0; 0; 1; 0] [0; 1; 0; 1])
                    [PStart; PStart; PTurnLock; PArriveUnlock; PStart; PStart;
                     PStart; PStart] in
  (turn_lock (sh st) = true ↔
   ∃ i p, pcs st !! i = Some p ∧ holds_turn p = true) ∧
  (∀ i j pi pj, i ≠ j → pcs st !! i = Some pi → pcs st !! j = Some pj →
                holds_turn pi = true → holds_turn pj = false).
Proof.
  apply (turn_lock_exclusive cars (Move <$> [3; 3; 3; 3; 2; 2]%nat));
    reflexivity.
Defined.

(** X6. No wake-up is lost: in every state a run reaches, a car asleep
    in [pthread_cond_wait] finds the intersection owned, by a direction
    other than its own, and a car of the owning direction is inside
    (and will broadcast when it leaves). *)
Theorem sleeper_waits_for_other_direction (cs : list car_t)
    (sched : list action) (st : state) :
  valid_manifest cs = true → run cs (init cs) sched = Some st →
  ∀ i c, cs !! i = Some c → pcs st !! i = Some PCondWait →
    current_direction (sh st) ≠ -1 ∧
    current_direction (sh st) ≠ car_dir c ∧
    ∃ j cj pj, cs !! j = Some cj ∧ pcs st !! j = Some pj ∧
               in_flow pj = true ∧ car_dir cj = current_direction (sh st).
Proof.
  intros Hv Hrun i c Hc Hp.
  pose proof (reachable_Inv _ _ _ Hv Hrun) as HI.
  pose proof (reachable_Inv2 _ _ _ Hv Hrun) as HI2.
  assert (Hown : current_direction (sh st) ≠ -1)
    by (apply (inv_waiting _ _ HI); eauto).
  split; [done|]. split; [by apply (inv2_asleep _ _ HI2 i)|].
  pose proof (inv_owner_counted _ _ HI Hown) as Hpos.
  destruct (count_cars_exists _ cs (pcs st) Hpos)
    as (j & cj & pj & Hcj & Hpj & [Hdir Hin]%andb_true_iff).
  apply Z.eqb_eq in Hdir. by exists j, cj, pj.
Qed.

Lemma sleeper_waits_for_other_direction_witness :
  let st := mkState (mkShared [false; true; true; true] false 0
                       [1; 0; 0; 0] [0; 0; 0; 1])
                    [PSemWait; PStart; PSpin [1; 2; 3]; PCondWait; PStart;
                     PStart; PCondWait; PStart] in
  let c := mkCar 4 (44 # 10) (mkDirections "v"%char "v"%char) 3 in
  current_direction (sh st) ≠ -1 ∧
  current_direction (sh st) ≠ car_dir c ∧
  ∃ j cj pj, cars !! j = Some cj ∧ pcs st !! j = Some pj ∧
             in_flow pj = true ∧ car_dir cj = current_direction (sh st).
Proof.
  intros st c.
  refine (sleeper_waits_for_other_direction cars
            (Move <$> [2; 2; 2; 2; 2; 2; 2; 2; 2; 2; 3; 3; 3; 3; 0; 6; 6; 6; 6]%nat)
            st _ _ 3%nat c _ _); reflexivity.
Defined.

(** X7. Nothing is left locked: in a state a run reaches in which every
    car has returned, all quadrant mutexes and [turn_lock] are
    unlocked, nobody owns the intersection, all counts are 0 and every
    head-of-line token is back; the shared variables are as [main] set
    them up. *)
Theorem exited_state_is_initial (cs : list car_t) (sched : list action)
    (st : state) :
  valid_manifest cs = true → run cs (init cs) sched = Some st →
  all_exited st = true → sh st = init_shared.
Proof.
  intros Hv Hrun Hex.
  pose proof (reachable_Inv _ _ _ Hv Hrun) as HI.
  assert (Hzero : ∀ P : car_t → pc → bool,
            (∀ c, P c PDone = false) → count_cars P cs (pcs st) = 0).
  { intros P HP. by apply count_cars_done. }
  assert (Hq : ∀ k, 0 ≤ k < 4 → zlookup (quad (sh st)) k = Some false).
  { intros k Hk. destruct (inv_quad _ _ HI k Hk) as (b & Hb & Hn).
    unfold nheld in Hn. rewrite Hzero in Hn by done. by destruct b. }
  assert (Hf : ∀ d, 0 ≤ d < 4 → zlookup (flow_count (sh st)) d = Some 0).
  { intros d Hd. rewrite (inv_flow _ _ HI d Hd). unfold nflow.
    rewrite Hzero; [done|]. intros c. apply andb_false_r. }
  assert (Hh : ∀ d, 0 ≤ d < 4 → zlookup (hol_sem (sh st)) d = Some 1).
  { intros d Hd. rewrite (inv_hol _ _ HI d Hd). unfold nhol.
    rewrite Hzero; [done|]. intros c. apply andb_false_r. }
  assert (Ht : turn_lock (sh st) = false).
  { destruct (turn_lock (sh st)) eqn:Hl; [|done].
    destruct (inv_turn _ _ HI Hl) as (j & p & Hp & Hhold).
    rewrite (all_exited_lookup st j p Hex Hp) in Hhold. done. }
  assert (Hc : current_direction (sh st) = -1).
  { destruct (decide (current_direction (sh st) = -1)) as [|Hown]; [done|].
    pose proof (inv_owner_counted _ _ HI Hown) as Hpos.
    unfold nflow in Hpos. rewrite Hzero in Hpos; [lia|].
    intros c. apply andb_false_r. }
  pose proof (four_cells _ _ _ _ _ (inv_quad_len _ _ HI)
                (Hq 0 ltac:(lia)) (Hq 1 ltac:(lia))
                (Hq 2 ltac:(lia)) (Hq 3 ltac:(lia))) as Eq.
  pose proof (four_cells _ _ _ _ _ (inv_flow_len _ _ HI)
                (Hf 0 ltac:(lia)) (Hf 1 ltac:(lia))
                (Hf 2 ltac:(lia)) (Hf 3 ltac:(lia))) as Ef.
  pose proof (four_cells _ _ _ _ _ (inv_hol_len _ _ HI)
                (Hh 0 ltac:(lia)) (Hh 1 ltac:(lia))
                (Hh 2 ltac:(lia)) (Hh 3 ltac:(lia))) as Eh.
  destruct st as [[q t cd fc hs] ps]. simpl in *. by subst.
Qed.

Lemma exited_state_is_initial_witness :
  sh (mkState init_shared (replicate 8 PDone)) = init_shared.
Proof.
  apply (exited_state_is_initial cars
           (Move <$> (replicate 17 0 ++ replicate 17 1 ++ replicate 19 2 ++
                      replicate 17 3 ++ replicate 19 4 ++ replicate 17 5 ++
                      replicate 19 6 ++ replicate 15 7)%nat));
    reflexivity.
Defined.

(** X8. Where a car can be stuck on the head-of-line semaphores,
    [turn_lock], [turn_cv] and the quadrant mutexes, the objects of the
    transition system ([print_lock], which [log_event] holds around its
    [printf], is not one of them): in every state a run reaches, the
    next call of a car on one of these objects blocks exactly when the
    car is at [sem_wait] and its direction's token is taken, at a lock
    of [turn_lock] and the mutex is locked, or asleep in
    [pthread_cond_wait]; a car that has returned makes no call.  No
    lock of a quadrant mutex, no unlock and no [sem_post] blocks. *)
Theorem blocked_only_at_token_lock_or_sleep (cs : list car_t)
    (sched : list action) (st : state) :
  valid_manifest cs = true → run cs (init cs) sched = Some st →
  ∀ i c p, cs !! i = Some c → pcs st !! i = Some p →
    (move cs st i = None ↔
     (p = PSemWait ∧ zlookup (hol_sem (sh st)) (car_dir c) = Some 0) ∨
     ((p = PTurnLock ∨ p = PCondWoken ∨ p = PExitLock) ∧
      turn_lock (sh st) = true) ∨
     p = PCondWait ∨ p = PDone).
Proof.
  intros Hv Hrun i c p Hc Hp.
  pose proof (reachable_Inv _ _ _ Hv Hrun) as HI.
  pose proof (reachable_Inv2 _ _ _ Hv Hrun) as HI2.
  pose proof (valid_car_dir _ _ _ Hv Hc) as Hd.
  pose proof (inv_hol _ _ HI _ Hd) as Hsem.
  pose proof (inv_flow _ _ HI _ Hd) as Hcount.
  assert (Hgo : ∀ p' s' b, tstep c (sh st) p p' s' b → move cs st i ≠ None).
  { intros p' s' b Ht. by rewrite (tstep_move cs st i c p p' s' b Hc Hp Ht). }
  split.
  - intros Hnone.
    destruct p; try (right; right; auto; fail);
      try (destruct (turn_lock (sh st)) eqn:Hl;
           [right; left; auto | destruct (Hgo _ _ _ ltac:(by constructor) Hnone)]).
    + destruct (Hgo _ _ _ (ts_start c (sh st)) Hnone).
    + left. split; [done|]. rewrite Hsem. f_equal.
      destruct (decide (0 < 1 - nhol (car_dir c) cs (pcs st))) as [Hpos|Hno].
      * destruct (Hgo _ _ _ (ts_sem_wait c (sh st) _ Hsem Hpos) Hnone).
      * pose proof (inv2_hol _ _ HI2 _ Hd). lia.
    + destruct (decide (current_direction (sh st) = -1)) as [Hfree|Hown].
      * destruct (Hgo _ _ _ (ts_join_free c (sh st) _ Hfree Hcount) Hnone).
      * destruct (decide (current_direction (sh st) = car_dir c)) as [Hme|Hother].
        -- destruct (Hgo _ _ _ (ts_join_same c (sh st) _ Hown Hme Hcount) Hnone).
        -- destruct (Hgo _ _ _ (ts_wait c (sh st) Hown Hother) Hnone).
    + destruct (Hgo _ _ _ (ts_arrive_unlock c (sh st)) Hnone).
    + destruct (sort_quads_returns c) as [q Hq].
      destruct (Hgo _ _ _ (ts_cross c (sh st) q Hq) Hnone).
    + destruct (decide (i0 < length q)%nat) as [Hlt|Hge].
      * destruct (lookup_lt_is_Some_2 q i0 Hlt) as [k Hk].
        pose proof (next_quadrant_free cs Hv st HI HI2 i q i0 k Hp Hk) as Hfree.
        destruct (Hgo _ _ _ (ts_lock c (sh st) q i0 k Hlt Hk Hfree) Hnone).
      * destruct (Hgo _ _ _ (ts_locked c (sh st) q i0 ltac:(lia)) Hnone).
    + destruct (Hgo _ _ _ (ts_spin c (sh st) q) Hnone).
    + destruct k as [|k].
      * destruct (Hgo _ _ _ (ts_unlocked c (sh st) q) Hnone).
      * destruct (inv_local _ _ HI i c _ Hc Hp) as [Hsort Hn].
        destruct (lookup_lt_is_Some_2 q k) as [v Hv']; [lia|].
        destruct (path_of_pc cs st HI i c q Hc Hsort k v Hv') as [b Hb].
        destruct (Hgo _ _ _ (ts_unlock c (sh st) q k v b Hv' Hb) Hnone).
    + destruct (decide (nflow (car_dir c) cs (pcs st) - 1 = 0)) as [Hz|Hnz].
      * destruct (Hgo _ _ _ (ts_leave_last c (sh st) _ Hcount Hz) Hnone).
      * destruct (Hgo _ _ _ (ts_leave_more c (sh st) _ Hcount Hnz) Hnone).
    + destruct (Hgo _ _ _ (ts_exit_unlock c (sh st)) Hnone).
    + destruct (Hgo _ _ _ (ts_sem_post c (sh st) _ Hsem) Hnone).
  - unfold move. rewrite Hc, Hp. simpl.
    intros [[-> Hz]|[[[->|[->| ->]] Hl]|[->| ->]]];
      unfold thread_step, ArriveIntersection_step, ExitIntersection_step;
      fold (car_dir c); rewrite ?Hz, ?Hl; simpl; done.
Qed.

Lemma blocked_only_at_token_lock_or_sleep_witness :
  let st := mkState (mkShared [false; true; true; true] false 0
                       [1; 0; 0; 0] [0; 0; 0; 1])
                    [PSemWait; PStart; PSpin [1; 2; 3]; PCondWait; PStart;
                     PStart; PCondWait; PStart] in
  let c := mkCar 1 (11 # 10) (mkDirections "^"%char "^"%char) 0 in
  let p := PSemWait in
  (move cars st 0 = None ↔
   (p = PSemWait ∧ zlookup (hol_sem (sh st)) (car_dir c) = Some 0) ∨
   ((p = PTurnLock ∨ p = PCondWoken ∨ p = PExitLock) ∧
    turn_lock (sh st) = true) ∨
   p = PCondWait ∨ p = PDone).
Proof.
  intros st c p.
  refine (blocked_only_at_token_lock_or_sleep cars
            (Move <$> [2; 2; 2; 2; 2; 2; 2; 2; 2; 2; 3; 3; 3; 3; 0; 6; 6; 6; 6]%nat)
            st _ _ 0%nat c p _ _); reflexivity.
Defined.

(** X9. Every exit frees the intersection: in every state a run
    reaches, the [ExitIntersection] update of a car brings its count
    from 1 to 0, sets the owner to -1 with all counts 0, and wakes every
    sleeping car; the branch that keeps the owner is not taken. *)
Theorem leave_always_frees (cs : list car_t) (sched : list action)
    (st : state) :
  valid_manifest cs = true → run cs (init cs) sched = Some st →
  ∀ i c, cs !! i = Some c → pcs st !! i = Some PLeave →
    zlookup (flow_count (sh st)) (car_dir c) = Some 1 ∧
    ∃ st', move cs st i = Some st' ∧
           current_direction (sh st') = -1 ∧
           (∀ d v, zlookup (flow_count (sh st')) d = Some v → v = 0) ∧
           (∀ j, pcs st' !! j ≠ Some PCondWait) ∧
           (∀ j, pcs st !! j = Some PCondWait →
                 pcs st' !! j = Some PCondWoken).
Proof.
  intros Hv Hrun i c Hc Hp.
  pose proof (reachable_Inv _ _ _ Hv Hrun) as HI.
  pose proof (reachable_Inv2 _ _ _ Hv Hrun) as HI2.
  pose proof (valid_car_dir _ _ _ Hv Hc) as Hd.
  pose proof (leaving_count cs Hv st HI HI2 i c Hc Hp) as Hone.
  split; [done|].
  pose proof (tstep_move cs st i c _ _ _ _ Hc Hp
                (ts_leave_last c (sh st) 1 Hone eq_refl)) as Hmove.
  eexists. split; [exact Hmove|].
  pose proof (move_Inv _ _ _ _ Hv HI Hmove) as HI'.
  pose proof (Inv_flow_inv _ _ HI') as (_ & _ & _ & Hzero).
  split; [done|]. split; [by apply Hzero|]. split.
  - intros j Hj. by apply (inv_waiting _ _ HI'); eauto.
  - intros j Hj. simpl.
    assert (i ≠ j) by (intros ->; rewrite Hp in Hj; by injection Hj).
    unfold pcs_after.
    by rewrite list_lookup_fmap, list_lookup_insert_ne, Hj.
Qed.

Lemma leave_always_frees_witness :
  let st := mkState (mkShared [false; false; false; false] true 2
                       [0; 0; 1; 0] [0; 0; 0; 1])
                    [PSemWait; PStart; PCondWait; PLeave; PStart; PStart;
                     PCondWait; PStart] in
  let c := mkCar 4 (44 # 10) (mkDirections "v"%char "v"%char) 3 in
  zlookup (flow_count (sh st)) (car_dir c) = Some 1 ∧
  ∃ st', move cars st 3 = Some st' ∧
         current_direction (sh st') = -1 ∧
         (∀ d v, zlookup (flow_count (sh st')) d = Some v → v = 0) ∧
         (∀ j, pcs st' !! j ≠ Some PCondWait) ∧
         (∀ j, pcs st !! j = Some PCondWait →
               pcs st' !! j = Some PCondWoken).
Proof.
  intros st c.
  refine (leave_always_frees cars
            (Move <$> [3; 3; 3; 3; 3; 2; 2; 2; 2; 6; 6; 6; 6;
                       3; 3; 3; 3; 3; 3; 3; 3; 3; 0]%nat)
            st _ _ 3%nat c _ _); reflexivity.
Defined.

(** X16. The owner changes through the free state only: whatever
    happens, [current_direction] stays as it is, or goes from -1 to the
    direction of a car that was evaluating the loop condition of
    [ArriveIntersection], or goes to -1 by a car that was at its
    [ExitIntersection] update. *)
Theorem owner_changes_through_free (cs : list car_t) (st st' : state)
    (a : action) :
  step cs st a = Some st' →
  current_direction (sh st') = current_direction (sh st) ∨
  (∃ i c, a = Move i ∧ cs !! i = Some c ∧ pcs st !! i = Some PWhile ∧
          current_direction (sh st) = -1 ∧
          current_direction (sh st') = car_dir c) ∨
  (∃ i, a = Move i ∧ pcs st !! i = Some PLeave ∧
        current_direction (sh st') = -1).
Proof.
  destruct a as [i|i]; simpl.
  - intros (c & p & p' & s' & b & Hc & Hp & Ht & ->)%step_inv.
    apply thread_step_tstep in Ht.
    inversion Ht; subst; simpl; auto.
    + right. left. by exists i, c.
    + right. right. by exists i.
  - intros [_ ->]%spurious_wakeup_inv. by left.
Qed.

Lemma owner_changes_through_free_witness :
  let st := mkState (mkShared [false; false; false; false] true 2
                       [0; 0; 1; 0] [0; 0; 0; 1])
                    [PSemWait; PStart; PCondWait; PLeave; PStart; PStart;
                     PCondWait; PStart] in
  let st' := mkState (mkShared [false; false; false; false] true (-1)
                        [0; 0; 0; 0] [0; 0; 0; 1])
                     [PSemWait; PStart; PCondWoken; PExitUnlock; PStart;
                      PStart; PCondWoken; PStart] in
  current_direction (sh st') = current_direction (sh st) ∨
  (∃ i c, Move 3 = Move i ∧ cars !! i = Some c ∧
          pcs st !! i = Some PWhile ∧
          current_direction (sh st) = -1 ∧
          current_direction (sh st') = car_dir c) ∨
  (∃ i, Move 3 = Move i ∧ pcs st !! i = Some PLeave ∧
        current_direction (sh st') = -1).
Proof.
  intros st st'.
  apply (owner_changes_through_free cars st st' (Move 3)). reflexivity.
Defined.

(** ** More about the helpers *)

(** X10. [get_turn] returns [RIGHT_T] exactly for an arrow followed by
    its clockwise neighbour and [LEFT_T] exactly for an arrow followed
    by its counter-clockwise neighbour; every other pair of characters
    (equal, opposite, or not arrows) is [STRAIGHT_T]. *)
Theorem get_turn_turns (d : directions) :
  (get_turn d = RIGHT_T ↔
   ∃ o, dir_original d = arrow o ∧ dir_target d = arrow (clockwise o)) ∧
  (get_turn d = LEFT_T ↔
   ∃ o, dir_original d = arrow o ∧
        dir_target d = arrow (counter_clockwise o)) ∧
  (get_turn d = STRAIGHT_T ↔
   ∀ o, dir_original d = arrow o →
        dir_target d ≠ arrow (clockwise o) ∧
        dir_target d ≠ arrow (counter_clockwise o)).
Proof.
  destruct d as [o t]. simpl.
  assert (Hcases :
    (get_turn (mkDirections o t) = RIGHT_T ∧
     ∃ x, o = arrow x ∧ t = arrow (clockwise x)) ∨
    (get_turn (mkDirections o t) = LEFT_T ∧
     ∃ x, o = arrow x ∧ t = arrow (counter_clockwise x)) ∨
    (get_turn (mkDirections o t) = STRAIGHT_T ∧
     ∀ x, o = arrow x →
          t ≠ arrow (clockwise x) ∧ t ≠ arrow (counter_clockwise x))).
  { unfold get_turn. simpl.
    destruct (Ascii.eqb_spec o t);
      destruct (Ascii.eqb_spec o "^"%char);
      destruct (Ascii.eqb_spec o "v"%char);
      destruct (Ascii.eqb_spec o ">"%char);
      destruct (Ascii.eqb_spec o "<"%char);
      destruct (Ascii.eqb_spec t "^"%char);
      destruct (Ascii.eqb_spec t "v"%char);
      destruct (Ascii.eqb_spec t ">"%char);
      destruct (Ascii.eqb_spec t "<"%char);
      simpl; try congruence;
      first
        [ left; split; [reflexivity|];
          first [ exists North; simpl; split; congruence
                | exists East; simpl; split; congruence
                | exists South; simpl; split; congruence
                | exists West; simpl; split; congruence ]
        | right; left; split; [reflexivity|];
          first [ exists North; simpl; split; congruence
                | exists East; simpl; split; congruence
                | exists South; simpl; split; congruence
                | exists West; simpl; split; congruence ]
        | right; right; split; [reflexivity|];
          intros x Hx; destruct x; simpl in *; split; congruence ]. }
  destruct Hcases as [[Hr (x & Hx & Ht)]|[[Hl (x & Hx & Ht)]|[Hs Hno]]].
  - rewrite Hr. split; [|split].
    + split; [by exists x|done].
    + split; [done|]. intros (y & Hy & Hty). subst.
      destruct x, y; simpl in *; congruence.
    + split; [done|]. intros H. destruct (H x Hx) as [H1 _]. done.
  - rewrite Hl. split; [|split].
    + split; [done|]. intros (y & Hy & Hty). subst.
      destruct x, y; simpl in *; congruence.
    + split; [by exists x|done].
    + split; [done|]. intros H. destruct (H x Hx) as [_ H2]. done.
  - rewrite Hs. split; [|split].
    + split; [done|]. intros (y & Hy & Hty). by destruct (Hno y Hy).
    + split; [done|]. intros (y & Hy & Hty). by destruct (Hno y Hy).
    + done.
Qed.

(** X11. The path of a car whose origin is an arrow starts at the
    quadrant after its direction index and goes on through consecutive
    quadrants, modulo 4: one quadrant for a right turn, two for going
    straight, three for a left turn. *)
Theorem get_quads_rotates (c : car_t) :
  0 ≤ car_dir c < 4 →
  length (get_quads c) =
    match get_turn (dirs c) with
    | RIGHT_T => 1%nat
    | STRAIGHT_T => 2%nat
    | LEFT_T => 3%nat
    end ∧
  ∀ i k, get_quads c !! i = Some k → k = (car_dir c + 1 + Z.of_nat i) mod 4.
Proof.
  unfold car_dir, dir_index, get_quads, DIR_N, DIR_E, DIR_S, DIR_W. simpl.
  destruct (Ascii.eqb (dir_original (dirs c)) "^"%char);
    [|destruct (Ascii.eqb (dir_original (dirs c)) ">"%char);
      [|destruct (Ascii.eqb (dir_original (dirs c)) "v"%char);
        [|destruct (Ascii.eqb (dir_original (dirs c)) "<"%char); [|lia]]]];
    intros _; destruct (get_turn (dirs c)); (split; [reflexivity|]);
    intros [|[|[|i]]] k Hk; simplify_eq/=; reflexivity.
Qed.

Lemma get_quads_rotates_witness :
  let c := mkCar 5 (55 # 10) (mkDirections "v"%char ">"%char) 4 in
  length (get_quads c) =
    match get_turn (dirs c) with
    | RIGHT_T => 1%nat
    | STRAIGHT_T => 2%nat
    | LEFT_T => 3%nat
    end ∧
  ∀ i k, get_quads c !! i = Some k → k = (car_dir c + 1 + Z.of_nat i) mod 4.
Proof.
  apply (get_quads_rotates
           (mkCar 5 (55 # 10) (mkDirections "v"%char ">"%char) 4)).
  change (0 ≤ 2 < 4). lia.
Defined.

(** X12. [dir_index] and [arrow] are inverse to each other on the four
    directions, and [dir_index] returns -1 exactly for the characters
    that are no arrow. *)
Theorem dir_index_arrow (d : ascii) :
  (∀ o, dir_index d = direction_index o ↔ d = arrow o) ∧
  (dir_index d = -1 ↔ is_arrow d = false).
Proof.
  unfold dir_index, is_arrow, DIR_N, DIR_E, DIR_S, DIR_W.
  destruct (Ascii.eqb_spec d "^"%char) as [->|H1]; simpl.
  { split; [intros []; simpl; split; (lia || congruence)|split; (lia || done)]. }
  destruct (Ascii.eqb_spec d ">"%char) as [->|H2]; simpl.
  { split; [intros []; simpl; split; (lia || congruence)|split; (lia || done)]. }
  destruct (Ascii.eqb_spec d "v"%char) as [->|H3]; simpl.
  { split; [intros []; simpl; split; (lia || congruence)|split; (lia || done)]. }
  destruct (Ascii.eqb_spec d "<"%char) as [->|H4]; simpl.
  { split; [intros []; simpl; split; (lia || congruence)|split; (lia || done)]. }
  split; [|done]. intros []; simpl; split; (lia || congruence).
Qed.

(** *** [lock_quads] and the bounds of the array *)

Lemma swap_if_less_length (q q' : list Z) i j :
  swap_if_less q i j = Some q' → length q' = length q.
Proof.
  unfold swap_if_less.
  destruct (q !! i) as [a|]; [|done]. destruct (q !! j) as [b|]; [|done].
  simpl. destruct (b <? a); intros [= <-]; by rewrite ?length_insert.
Qed.

Lemma sort_inner_length fuel : ∀ (q q' : list Z) i j,
  sort_inner q i j fuel = Some q' → length q' = length q.
Proof.
  induction fuel as [|fuel IH]; intros q q' i j H; simpl in H.
  - by injection H as <-.
  - destruct (swap_if_less q i j) as [q1|] eqn:Hs; [|done]. simpl in H.
    rewrite (IH _ _ _ _ H). by eapply swap_if_less_length.
Qed.

Lemma sort_outer_length fuel : ∀ (q q' : list Z) n i,
  sort_outer q n i fuel = Some q' → length q' = length q.
Proof.
  induction fuel as [|fuel IH]; intros q q' n i H; simpl in H.
  - by injection H as <-.
  - destruct (sort_inner q i (S i) (n - S i)) as [q1|] eqn:Hs; [|done].
    simpl in H. rewrite (IH _ _ _ _ H). by eapply sort_inner_length.
Qed.

Lemma lock_loop_outside fuel : ∀ (q : list Z) i,
  (i ≤ length q)%nat → (length q < i + fuel)%nat →
  lock_loop q i fuel = None.
Proof.
  induction fuel as [|fuel IH]; intros q i Hi H; [lia|]. simpl.
  destruct (q !! i) as [k|] eqn:Hk; [|done]. simpl.
  apply lookup_lt_Some in Hk. rewrite IH by lia. done.
Qed.

Lemma unlock_loop_outside (q : list Z) k :
  (length q < k)%nat → unlock_loop q k = None.
Proof.
  destruct k as [|i]; [lia|]. intros H. simpl.
  by rewrite (lookup_ge_None_2 q i) by lia.
Qed.

(** X13. The cells of [q] that [lock_quads] and [unlock_quads] read
    and write are all inside [q] exactly when [n] is at most the length
    of [q]: for a larger [n] each reads a cell of [q] outside it, and
    for every [n] within it the sort and both loops index [q] inside
    only.  (What the mutex calls on [quad[q[i]]] then do is the matter
    of the transition system, not of this property.) *)
Theorem lock_quads_in_bounds (q : list Z) (n : nat) :
  (lock_quads q n = None ↔ (length q < n)%nat) ∧
  (unlock_quads q n = None ↔ (length q < n)%nat).
Proof.
  split; split.
  - intros Hnone. destruct (decide (n ≤ length q)%nat) as [Hle|]; [|lia].
    destruct (sort_quads_spec q n Hle) as (q' & Hrun & Hl & _).
    unfold lock_quads in Hnone. rewrite Hrun in Hnone. simpl in Hnone.
    rewrite lock_loop_spec in Hnone by lia. done.
  - intros Hlt. unfold lock_quads.
    destruct (sort_quads q n) as [q'|] eqn:Hs; [|done]. simpl.
    rewrite lock_loop_outside; [done|lia|].
    rewrite (sort_outer_length _ _ _ _ _ Hs). lia.
  - intros Hnone. destruct (decide (n ≤ length q)%nat) as [Hle|]; [|lia].
    unfold unlock_quads in Hnone. by rewrite unlock_loop_spec in Hnone.
  - apply unlock_loop_outside.
Qed.

(** *** [lock_quads] on an array that is sorted already *)

Lemma sorted_le_lookup (q : list Z) i j a b :
  StronglySorted Z.le q → (i < j)%nat →
  q !! i = Some a → q !! j = Some b → a ≤ b.
Proof.
  intros Hs. revert i j. induction Hs as [|x q Hs IH Hx]; intros i j Hij Ha Hb.
  - done.
  - destruct i as [|i], j as [|j]; simplify_eq/=; try lia.
    + rewrite Forall_forall in Hx. apply Hx.
      eapply list_elem_of_lookup_2; eauto.
    + apply (IH i j); auto; lia.
Qed.

Lemma swap_if_less_sorted (q : list Z) i j a b :
  q !! i = Some a → q !! j = Some b → a ≤ b → swap_if_less q i j = Some q.
Proof.
  intros Ha Hb Hle. unfold swap_if_less. rewrite Ha, Hb. simpl.
  destruct (Z.ltb_spec b a); [lia|done].
Qed.

Lemma sort_inner_sorted fuel : ∀ (q : list Z) i j n,
  (i < j)%nat → (j + fuel = n)%nat → (n ≤ length q)%nat →
  StronglySorted Z.le (take n q) → sort_inner q i j fuel = Some q.
Proof.
  induction fuel as [|fuel IH]; intros q i j n Hij Hn Hlen Hs; [done|].
  destruct (lookup_lt_is_Some_2 q i) as [a Ha]; [lia|].
  destruct (lookup_lt_is_Some_2 q j) as [b Hb]; [lia|].
  assert (a ≤ b).
  { apply (sorted_le_lookup (take n q) i j a b Hs Hij);
      by rewrite lookup_take_lt by lia. }
  simpl. rewrite (swap_if_less_sorted q i j a b) by done. simpl.
  apply (IH q i (S j) n); auto; lia.
Qed.

Lemma sort_outer_sorted fuel : ∀ (q : list Z) i n,
  (i + fuel = n)%nat → (n ≤ length q)%nat →
  StronglySorted Z.le (take n q) → sort_outer q n i fuel = Some q.
Proof.
  induction fuel as [|fuel IH]; intros q i n Hn Hlen Hs; [done|].
  simpl. rewrite (sort_inner_sorted (n - S i) q i (S i) n) by (done || lia).
  simpl. apply IH; auto; lia.
Qed.

(** X14. An array whose first [n] cells are ascending already is left
    as it is by [lock_quads], which locks the cells in the order it
    found them. *)
Theorem lock_quads_keeps_sorted (q : list Z) (n : nat) :
  (n ≤ length q)%nat → StronglySorted Z.le (take n q) →
  lock_quads q n = Some (q, EvLock <$> take n q).
Proof.
  intros Hlen Hs. unfold lock_quads, sort_quads.
  rewrite (sort_outer_sorted n q 0%nat n) by (done || lia). simpl.
  rewrite lock_loop_spec by lia. simpl. by rewrite drop_0.
Qed.

Lemma lock_quads_keeps_sorted_witness :
  lock_quads [1; 2; 3; 0] 3 = Some ([1; 2; 3; 0], EvLock <$> take 3 [1; 2; 3; 0]).
Proof.
  apply (lock_quads_keeps_sorted [1; 2; 3; 0] 3).
  - simpl. lia.
  - simpl. repeat constructor; lia.
Defined.

(** ** A crossing, start to end *)

Lemma run_app cs s1 : ∀ st st1 s2,
  run cs st s1 = Some st1 → run cs st (s1 ++ s2) = run cs st1 s2.
Proof.
  induction s1 as [|a s1 IH]; intros st st1 s2 Hrun; simpl in *.
  - by injection Hrun as <-.
  - destruct (step cs st a) as [st2|]; [|done]. simpl in *. by apply IH.
Qed.

Lemma set_quad_id s : set_quad s (quad s) = s.
Proof. by destruct s. Qed.

Lemma set_quad_twice s x y : set_quad (set_quad s x) y = set_quad s y.
Proof. reflexivity. Qed.

Lemma lock_all_snoc qd ks k :
  lock_all qd (ks ++ [k]) = zupdate (lock_all qd ks) k true.
Proof. unfold lock_all. by rewrite foldl_snoc. Qed.

Lemma lock_all_length qd ks : length (lock_all qd ks) = length qd.
Proof.
  induction ks as [|k ks IH] using rev_ind; [done|].
  by rewrite lock_all_snoc, length_zupdate.
Qed.

Lemma lock_all_other qd ks k :
  Forall (fun x => 0 ≤ x) ks → k ∉ ks →
  zlookup (lock_all qd ks) k = zlookup qd k.
Proof.
  induction ks as [|x ks IH] using rev_ind; [done|].
  intros [Hks Hx]%Forall_app Hk. rewrite lock_all_snoc.
  rewrite Forall_singleton in Hx.
  rewrite zlookup_zupdate_ne; [|done|].
  - apply IH; [done|]. intros Hin. apply Hk, elem_of_app. by left.
  - intros ->. apply Hk, elem_of_app. right. by apply list_elem_of_singleton.
Qed.

Section Crossing.

Variables (cs : list car_t) (i : nat) (c : car_t).
Hypothesis Hc : cs !! i = Some c.

Variables (s0 : shared) (ps : list pc) (q : list Z).
Hypothesis Hi : (i < length ps)%nat.
Hypothesis Hlen : length (quad s0) = 4%nat.
Hypothesis Hsorted : StronglySorted Z.lt q.
Hypothesis Hrange : Forall (fun k => 0 ≤ k < 4) q.
Hypothesis Hfree : ∀ k, k ∈ q → zlookup (quad s0) k = Some false.

(** The state in which car [i] is at [p] and the mutexes are [qd]. *)
Local Abbreviation at_ p qd := (mkState (set_quad s0 qd) (<[i := p]> ps)).

Lemma crossing_move p qd p' s' :
  tstep c (set_quad s0 qd) p p' s' false →
  move cs (at_ p qd) i = Some (mkState s' (<[i := p']> ps)).
Proof.
  intros Ht.
  rewrite (tstep_move cs (at_ p qd) i c p p' s' false Hc); [|by apply list_lookup_insert_eq|done].
  simpl. unfold pcs_after. by rewrite list_insert_insert_eq.
Qed.

Lemma take_nonneg j : Forall (fun x => 0 ≤ x) (take j q).
Proof.
  apply Forall_take. eapply Forall_impl; [exact Hrange|]. simpl. lia.
Qed.

Lemma next_free j k :
  q !! j = Some k → zlookup (lock_all (quad s0) (take j q)) k = Some false.
Proof.
  intros Hk. rewrite lock_all_other.
  - apply Hfree. by eapply list_elem_of_lookup_2.
  - apply take_nonneg.
  - by apply sorted_lt_not_in_take.
Qed.

Lemma locking_phase m : ∀ j,
  (j + m = length q)%nat →
  run cs (at_ (PLocking q j) (lock_all (quad s0) (take j q)))
      (replicate m (Move i))
  = Some (at_ (PLocking q (length q)) (lock_all (quad s0) q)).
Proof.
  induction m as [|m IH]; intros j Hj.
  - simpl. replace j with (length q) by lia. by rewrite firstn_all.
  - destruct (lookup_lt_is_Some_2 q j) as [k Hk]; [lia|].
    simpl. rewrite (crossing_move _ _ (PLocking q (S j))
                      (set_quad (set_quad s0 (lock_all (quad s0) (take j q)))
                         (zupdate (lock_all (quad s0) (take j q)) k true))).
    + simpl. rewrite <- lock_all_snoc, <- (take_S_r _ _ _ Hk).
      apply (IH (S j)). lia.
    + apply ts_lock; [lia|done|]. simpl. by apply next_free.
Qed.

Lemma unlocking_phase j :
  (j ≤ length q)%nat →
  run cs (at_ (PUnlocking q j) (lock_all (quad s0) (take j q)))
      (replicate j (Move i))
  = Some (at_ (PUnlocking q 0) (quad s0)).
Proof.
  induction j as [|j IH]; intros Hj; [done|].
  destruct (lookup_lt_is_Some_2 q j) as [k Hk]; [lia|].
  pose proof (next_free j k Hk) as Hfreek.
  assert (Hkr : 0 ≤ k < 4).
  { rewrite Forall_forall in Hrange. apply Hrange.
    by eapply list_elem_of_lookup_2. }
  pose (sj := set_quad s0 (lock_all (quad s0) (take (S j) q))).
  simpl. rewrite (crossing_move _ _ (PUnlocking q j)
                    (set_quad sj (zupdate (quad sj) k false))).
  - assert (Hback : zupdate (zupdate (lock_all (quad s0) (take j q)) k true)
                      k false = lock_all (quad s0) (take j q)).
    { unfold zupdate. rewrite list_insert_insert_eq. apply list_insert_id.
      unfold zlookup in Hfreek. by destruct (Z.leb_spec 0 k); [|lia]. }
    unfold sj. simpl quad.
    rewrite (take_S_r _ _ _ Hk), lock_all_snoc, set_quad_twice, Hback.
    apply IH. lia.
  - apply (ts_unlock c sj q j k true); [done|]. simpl.
    rewrite (take_S_r _ _ _ Hk), lock_all_snoc.
    apply zlookup_zupdate_eq. rewrite lock_all_length. lia.
Qed.

(** From [PCross] to [PExitLock] without interruption. *)
Lemma crossing_run :
  sort_quads (get_quads c) (length (get_quads c)) = Some q →
  run cs (mkState s0 (<[i := PCross]> ps))
      (replicate (2 * length q + 4) (Move i))
  = Some (mkState s0 (<[i := PExitLock]> ps)).
Proof.
  intros Hsort.
  replace (2 * length q + 4)%nat
    with (1 + (length q + (2 + (length q + 1))))%nat by lia.
  rewrite !replicate_add.
  rewrite (run_app cs _ _ (at_ (PLocking q 0) (quad s0))).
  2: { simpl. rewrite <- (set_quad_id s0) at 1.
       rewrite (crossing_move PCross (quad s0) (PLocking q 0) (set_quad s0 (quad s0))).
       - done.
       - rewrite set_quad_id. by constructor. }
  rewrite (run_app cs _ _ (at_ (PLocking q (length q)) (lock_all (quad s0) q))).
  2: { apply (locking_phase (length q) 0%nat). lia. }
  rewrite (run_app cs _ _ (at_ (PUnlocking q (length q)) (lock_all (quad s0) q))).
  2: { simpl.
       rewrite (crossing_move _ _ (PSpin q) (set_quad s0 (lock_all (quad s0) q)))
         by (apply ts_locked; lia).
       simpl.
       rewrite (crossing_move _ _ (PUnlocking q (length q))
                  (set_quad s0 (lock_all (quad s0) q))) by constructor.
       done. }
  rewrite (run_app cs _ _ (at_ (PUnlocking q 0) (quad s0))).
  2: { pose proof (unlocking_phase (length q) ltac:(lia)) as Hun.
       by rewrite firstn_all in Hun. }
  simpl.
  rewrite (crossing_move _ _ PExitLock (set_quad s0 (quad s0))) by constructor.
  simpl. by rewrite set_quad_id.
Qed.

End Crossing.

(** X15. Lock and unlock are balanced, and nothing gets in the way: in
    every state a run reaches, a car at the start of
    [CrossIntersection] can make all its calls in a row, two for each
    quadrant of its path and four more, and then stands before
    [ExitIntersection] with every shared variable, the quadrant mutexes
    among them, as it found them. *)
Theorem crossing_restores_quadrants (cs : list car_t) (sched : list action)
    (st : state) :
  valid_manifest cs = true → run cs (init cs) sched = Some st →
  ∀ i c, cs !! i = Some c → pcs st !! i = Some PCross →
    run cs st (replicate (2 * length (get_quads c) + 4) (Move i))
    = Some (mkState (sh st) (<[i := PExitLock]> (pcs st))).
Proof.
  intros Hv Hrun i c Hc Hp.
  pose proof (reachable_Inv _ _ _ Hv Hrun) as HI.
  pose proof (reachable_Inv2 _ _ _ Hv Hrun) as HI2.
  destruct (sort_quads_full (get_quads c)) as (q & Hsort & Hl & _ & _).
  destruct (sorted_path _ _ Hsort) as (Hs & Hr & _).
  assert (Hfree : ∀ k, k ∈ q → zlookup (quad (sh st)) k = Some false).
  { intros k Hk. rewrite Forall_forall in Hr.
    destruct (inv_quad _ _ HI k (Hr k Hk)) as (b & Hb & Hn).
    destruct b; [|done]. simpl in Hn.
    destruct (count_cars_exists (fun _ p => bool_decide (k ∈ held p))
                cs (pcs st)) as (h & ch & ph & Hch & Hph & Hin).
    { fold (nheld k cs (pcs st)). lia. }
    apply bool_decide_eq_true_1 in Hin.
    destruct (decide (h = i)) as [->|Hne].
    - assert (ph = PCross) as -> by congruence.
      by apply not_elem_of_nil in Hin.
    - destruct (flow_unique cs Hv st HI HI2 h i ch c ph PCross); auto.
      by eapply held_in_flow. }
  rewrite <- Hl.
  rewrite <- (crossing_run cs i c Hc (sh st) (pcs st) q
                (lookup_lt_Some _ _ _ Hp) (inv_quad_len _ _ HI) Hs Hr Hfree Hsort).
  rewrite (list_insert_id _ _ _ Hp). by destruct st.
Qed.

Lemma crossing_restores_quadrants_witness :
  let st := mkState (mkShared [false; false; false; false] false 0
                       [1; 0; 0; 0] [0; 1; 0; 1])
                    [PStart; PStart; PCross; PCondWait; PStart; PStart;
                     PStart; PStart] in
  let c := mkCar 3 (33 # 10) (mkDirections "^"%char "<"%char) 2 in
  run cars st (replicate (2 * length (get_quads c) + 4) (Move 2%nat))
  = Some (mkState (sh st) (<[2%nat := PExitLock]> (pcs st))).
Proof.
  intros st c.
  refine (crossing_restores_quadrants cars
            (Move <$> [2; 2; 2; 2; 2; 3; 3; 3; 3]%nat)
            st _ _ 2%nat c _ _); reflexivity.
Defined.
